(** * TPoolAllocator: a shallow embedding of
      include/cppcore/Memory/TPoolAllocator.h

    The allocator is pointer code: a singly linked chain of [Pool] nodes,
    each owning an array of [T], with three raw pointers into that chain
    ([m_first], [m_current], [m_freeList]).  The embedding keeps the
    pointers: the C++ free store is an explicit memory ([Mem]) that maps
    addresses to [Pool] nodes and to live arrays, [nullptr] is [None], and
    every member function is a function on the object's fields and the
    memory.  Undefined behaviour of the C++ program (dereferencing
    [nullptr] or a deleted node, deleting twice) is an explicit [UB]
    result.

    Modelling decisions:
    - [size_t] is a 64-bit unsigned integer, written as [Z] with the
      wrap-around spelled out ([wrap]).
    - [new] never fails and never hands out an address twice ([brk] is a
      bump counter), so a dangling pointer stays dangling.
    - The elements of type [T] are not modelled: an array is its length,
      and a [T*] is the pair of an array address and an index.
    - Forming the address [&m_pool[i]] is not bounds checked (as in the
      compiled program).
    - The two [while] loops walk a linked list in memory; they are
      fixpoints on a fuel that exceeds the number of nodes in memory
      ([fuel_of]).  [release_loop_fuel] and [clear_loop_terminates] show
      what the fuel means; on every pool the loops return ([release_wf],
      [clear_wf]).

    Contents: the memory and the member functions; the invariant of a pool
    ([linked], [wf]) and the states a program can reach ([reachable]);
    lemmas on each member function; the claims C1 to C10; further
    properties of the member functions, X1 to X17. *)

From stdpp Require Import gmap list strings pretty sorting.
From Stdlib Require Import ZArith Lia.

Local Open Scope Z_scope.

(** ** Memory *)

Definition wrap (z : Z) : Z := z mod 2 ^ 64.

(** [struct Pool]. *)
Record Pool := mkPool {
  m_poolsize : Z;
  m_pool : option nat;
  m_currentIdx : Z;
  m_next : option nat
}.

(** The free store: the [Pool] nodes, the live [T] arrays (with their
    lengths) and the next unused address. *)
Record Mem := mkMem {
  pools : gmap nat Pool;
  arrays : gmap nat Z;
  brk : nat
}.

(** The data members of [TPoolAllocator<T>]. *)
Record TPoolAllocator := mkAlloc {
  m_first : option nat;
  m_current : option nat;
  m_freeList : option nat;
  m_capacity : Z
}.

Inductive fault := NullDeref | UseAfterFree | DoubleFree | Diverges.

Inductive result (A : Type) : Type :=
  | Ok (a : A)
  | UB (f : fault).
Arguments Ok {A} a.
Arguments UB {A} f.

Definition rbind {A B} (r : result A) (k : A → result B) : result B :=
  match r with
  | Ok a => k a
  | UB f => UB f
  end.

Notation "'let*' x := e 'in' k" := (rbind e (λ x, k))
  (at level 10, x pattern, e at level 200, k at level 200).

Definition empty_mem : Mem := mkMem ∅ ∅ 0%nat.

(** [p->...] as an rvalue. *)
Definition load (h : Mem) (p : option nat) : result Pool :=
  match p with
  | None => UB NullDeref
  | Some a =>
      match pools h !! a with
      | Some pl => Ok pl
      | None => UB UseAfterFree
      end
  end.

(** [p->field = ...]. *)
Definition store (h : Mem) (p : option nat) (f : Pool → Pool) : result Mem :=
  match p with
  | None => UB NullDeref
  | Some a =>
      match pools h !! a with
      | Some pl => Ok (mkMem (<[a := f pl]> (pools h)) (arrays h) (brk h))
      | None => UB UseAfterFree
      end
  end.

Definition set_currentIdx (i : Z) (pl : Pool) : Pool :=
  mkPool (m_poolsize pl) (m_pool pl) i (m_next pl).
Definition set_next (n : option nat) (pl : Pool) : Pool :=
  mkPool (m_poolsize pl) (m_pool pl) (m_currentIdx pl) n.
Definition set_pool (b : option nat) (pl : Pool) : Pool :=
  mkPool (m_poolsize pl) b (m_currentIdx pl) (m_next pl).
Definition set_poolsize (n : Z) (pl : Pool) : Pool :=
  mkPool n (m_pool pl) (m_currentIdx pl) (m_next pl).

(** [new T[n]]. *)
Definition new_array (n : Z) (h : Mem) : nat * Mem :=
  (brk h, mkMem (pools h) (<[brk h := n]> (arrays h)) (S (brk h))).

(** [delete[] p]; deleting [nullptr] does nothing. *)
Definition delete_array (p : option nat) (h : Mem) : result Mem :=
  match p with
  | None => Ok h
  | Some b =>
      match arrays h !! b with
      | Some _ => Ok (mkMem (pools h) (delete b (arrays h)) (brk h))
      | None => UB DoubleFree
      end
  end.

(** [new Pool(numItems, prev)]: storage for the node, then the
    constructor, whose body allocates the array. *)
Definition new_Pool (numItems : Z) (prev : option nat) (h : Mem) : nat * Mem :=
  let a := brk h in
  let '(b, h1) := new_array numItems (mkMem (pools h) (arrays h) (S a)) in
  (a, mkMem (<[a := mkPool numItems (Some b) 0 prev]> (pools h1)) (arrays h1) (brk h1)).

(** [delete p] for a non-null [Pool *p]: [~Pool()] deletes the array, then
    the node goes. *)
Definition delete_Pool (a : nat) (h : Mem) : result Mem :=
  match pools h !! a with
  | None => UB DoubleFree
  | Some pl =>
      let* h1 := delete_array (m_pool pl) h in
      Ok (mkMem (delete a (pools h1)) (arrays h1) (brk h1))
  end.

(** ** Member functions *)

(** [TPoolAllocator()]. *)
Definition TPoolAllocator_default : TPoolAllocator := mkAlloc None None None 0.

(** [TPoolAllocator(size_t numItems)]. *)
Definition TPoolAllocator_sized (numItems : Z) (h : Mem) : TPoolAllocator * Mem :=
  let '(a, h1) := new_Pool numItems None h in
  (mkAlloc (Some a) (Some a) None (wrap (0 + numItems)), h1).

Definition getFreePool (t : TPoolAllocator) (h : Mem)
  : result (option nat * TPoolAllocator) :=
  let current := m_freeList t in
  match m_freeList t with
  | Some _ =>
      let* fl := load h (m_freeList t) in
      Ok (current, mkAlloc (m_first t) (m_current t) (m_next fl) (m_capacity t))
  | None => Ok (current, t)
  end.

Definition resize (growSize : Z) (t : TPoolAllocator) (h : Mem)
  : result (TPoolAllocator * Mem) :=
  let* too_small :=
    match m_current t with
    | Some _ =>
        let* cur := load h (m_current t) in
        Ok (growSize <? m_poolsize cur)
    | None => Ok false
    end in
  if too_small : bool then Ok (t, h)
  else
    match m_first t with
    | None =>
        let '(a, h1) := new_Pool growSize None h in
        let* cur := load h1 (Some a) in
        Ok (mkAlloc (Some a) (Some a) (m_freeList t)
              (wrap (m_capacity t + m_poolsize cur)), h1)
    | Some _ =>
        let* (pool, t1) := getFreePool t h in
        let '(pool, t2, h2) :=
          match pool with
          | None =>
              let '(a, h1) := new_Pool growSize None h in
              (Some a,
               mkAlloc (m_first t1) (m_current t1) (m_freeList t1)
                 (wrap (m_capacity t1 + growSize)),
               h1)
          | Some _ => (pool, t1, h)
          end in
        let* h3 := store h2 (m_current t2) (set_next pool) in
        let* cur := load h3 (m_current t2) in
        Ok (mkAlloc (m_first t2) (m_next cur) (m_freeList t2) (m_capacity t2), h3)
    end.

(** [T *alloc()]; the result is [None] for [nullptr] and [Some (b, i)] for
    [&b[i]]. *)
Definition alloc (t : TPoolAllocator) (h : Mem)
  : result (option (nat * Z) * TPoolAllocator * Mem) :=
  match m_current t with
  | None => Ok (None, t, h)
  | Some _ =>
      let* cur := load h (m_current t) in
      let* (t1, h1) :=
        (if m_currentIdx cur =? m_poolsize cur
         then resize (m_poolsize cur) t h
         else Ok (t, h)) in
      let* cur1 := load h1 (m_current t1) in
      match m_pool cur1 with
      | None => UB NullDeref
      | Some b =>
          let* h2 := store h1 (m_current t1)
                       (set_currentIdx (wrap (m_currentIdx cur1 + 1))) in
          Ok (Some (b, m_currentIdx cur1), t1, h2)
      end
  end.

(** The loop of [release]:
    [while (nullptr != current) { current->m_currentIdx = 0; current = current->m_next; }] *)
Fixpoint release_loop (fuel : nat) (h : Mem) (current : option nat) : result Mem :=
  match current with
  | None => Ok h
  | Some _ =>
      match fuel with
      | O => UB Diverges
      | S fuel' =>
          let* h1 := store h current (set_currentIdx 0) in
          let* cur := load h1 current in
          release_loop fuel' h1 (m_next cur)
      end
  end.

(** A walk that visits more nodes than the memory holds is in a cycle. *)
Definition fuel_of (h : Mem) : nat := S (size (pools h)).

Definition release (t : TPoolAllocator) (h : Mem) : result (TPoolAllocator * Mem) :=
  match m_current t with
  | None => Ok (t, h)
  | Some _ =>
      let* h1 := release_loop (fuel_of h) h (m_first t) in
      let* fst := load h1 (m_first t) in
      Ok (mkAlloc (m_first t) (m_first t) (m_next fst) (m_capacity t), h1)
  end.

(** The loop of [clear]:
    [while (nullptr != next) { Pool *current = next; next = current->m_next; delete current; }] *)
Fixpoint clear_loop (fuel : nat) (h : Mem) (next : option nat) : result Mem :=
  match next with
  | None => Ok h
  | Some a =>
      match fuel with
      | O => UB Diverges
      | S fuel' =>
          let* cur := load h next in
          let* h1 := delete_Pool a h in
          clear_loop fuel' h1 (m_next cur)
      end
  end.

Definition clear (t : TPoolAllocator) (h : Mem) : result (TPoolAllocator * Mem) :=
  match m_current t with
  | None => Ok (t, h)
  | Some _ =>
      let* h1 := clear_loop (fuel_of h) h (m_first t) in
      Ok (mkAlloc (m_first t) None None (m_capacity t), h1)
  end.

Definition reserve (size : Z) (t : TPoolAllocator) (h : Mem)
  : result (TPoolAllocator * Mem) :=
  let* (t1, h1) := clear t h in
  let '(a, h2) := new_Pool size None h1 in
  let t2 := mkAlloc (Some a) (Some a) (m_freeList t1) (m_capacity t1) in
  let '(b, h3) := new_array size h2 in
  let* h4 := store h3 (m_current t2) (set_pool (Some b)) in
  let* h5 := store h4 (m_current t2) (set_poolsize size) in
  Ok (mkAlloc (m_first t2) (m_current t2) (m_freeList t2) size, h5).

Definition capacity (t : TPoolAllocator) : Z := m_capacity t.

Section ElementSize.
(** [sizeof(T)]. *)
Variable sizeof_T : Z.

Definition reservedMem (t : TPoolAllocator) : Z := wrap (m_capacity t * sizeof_T).
End ElementSize.

Definition freeMem (t : TPoolAllocator) (h : Mem) : result Z :=
  match m_current t with
  | None => Ok 0
  | Some _ =>
      let* cur := load h (m_current t) in
      Ok (wrap (m_poolsize cur - m_currentIdx cur))
  end.

(** [dumpAllocations(allocs)]: the new contents of [allocs]. *)
Definition dumpAllocations (t : TPoolAllocator) (h : Mem) : result string :=
  let allocs := "" in
  let allocs := allocs +:+ "Number allocations = " in
  let* cur := load h (m_current t) in
  let allocs := allocs +:+ pretty (m_currentIdx cur) in
  let allocs := allocs +:+ String (Ascii.ascii_of_nat 10) EmptyString in
  Ok allocs.

Definition reset (t : TPoolAllocator) : TPoolAllocator :=
  mkAlloc (m_first t) (m_first t) (m_freeList t) (m_capacity t).

(** [~TPoolAllocator()]. *)
Definition TPoolAllocator_destroy (t : TPoolAllocator) (h : Mem)
  : result (TPoolAllocator * Mem) :=
  clear t h.

(** [k] calls of [alloc] in a row, collecting the returned pointers. *)
Fixpoint alloc_n (k : nat) (t : TPoolAllocator) (h : Mem)
  : result (list (option (nat * Z)) * TPoolAllocator * Mem) :=
  match k with
  | O => Ok ([], t, h)
  | S k' =>
      let* (p, t1, h1) := alloc t h in
      let* (ps, t2, h2) := alloc_n k' t1 h1 in
      Ok (p :: ps, t2, h2)
  end.

(** ** The shape of a pool in memory *)

(** [is_seg P p l q]: following [m_next] from [p] visits exactly the nodes
    of [l] (address and contents), in order, and then reaches [q]. *)
Fixpoint is_seg (P : gmap nat Pool) (p : option nat) (l : list (nat * Pool))
    (q : option nat) : Prop :=
  match l with
  | [] => p = q
  | x :: l' => p = Some x.1 ∧ P !! x.1 = Some x.2 ∧ is_seg P (m_next x.2) l' q
  end.

(** A chain ends in [nullptr]. *)
Definition is_chain (P : gmap nat Pool) (p : option nat) (l : list (nat * Pool)) : Prop :=
  is_seg P p l None.

(** What never changes in a chunk: its address, its size and its array. *)
Definition static (x : nat * Pool) : nat * Z * option nat :=
  (x.1, m_poolsize x.2, m_pool x.2).

(** The chunks of a chain are distinct nodes that own distinct live arrays
    of their own size; the sizes fit [size_t] and do not decrease along the
    chain. *)
Record chunks_ok (A : gmap nat Z) (sl : list (nat * Z * option nat)) : Prop := {
  ok_addr : NoDup (sl.*1.*1);
  ok_buf : NoDup (sl.*2);
  ok_live : Forall (λ s, ∃ b, s.2 = Some b ∧ A !! b = Some s.1.2 ∧ 0 ≤ s.1.2 < 2 ^ 64) sl;
  ok_sorted : StronglySorted Z.le (sl.*1.*2)
}.

(** Every address in use is below [brk]. *)
Definition mem_fresh (h : Mem) : Prop :=
  (∀ a, is_Some (pools h !! a) → (a < brk h)%nat) ∧
  (∀ b, is_Some (arrays h !! b) → (b < brk h)%nat).

(** A pool with an active chunk [c]: the primary chain is [l1 ++ c :: l2],
    and the free list [fl] is a tail of the part after [c] (it shares its
    nodes with the primary chain). *)
Record linked (t : TPoolAllocator) (h : Mem)
    (l1 : list (nat * Pool)) (c : nat * Pool) (l2 fl : list (nat * Pool)) : Prop := {
  lk_first : is_chain (pools h) (m_first t) (l1 ++ c :: l2);
  lk_current : m_current t = Some c.1;
  lk_free : is_chain (pools h) (m_freeList t) fl;
  lk_suffix : fl `suffix_of` l2;
  lk_chunks : chunks_ok (arrays h) (static <$> (l1 ++ c :: l2));
  lk_fresh : mem_fresh h
}.

(** The states of a pool: without an active chunk (as constructed by
    default, or after [clear]), or linked. *)
Inductive wf (t : TPoolAllocator) (h : Mem) : Prop :=
  | wf_empty :
      m_current t = None → m_freeList t = None → mem_fresh h → wf t h
  | wf_linked l1 c l2 fl :
      linked t h l1 c l2 fl → wf t h.

(** The cursors of a linked pool whose chunks all have room for at least
    one element: no cursor is past the end of its chunk, and the chunks on
    the free list are unused. *)
Definition cursors_ok (l : list (nat * Pool)) (fl : list (nat * Pool)) : Prop :=
  Forall (λ x, 0 < m_poolsize x.2 ∧ 0 ≤ m_currentIdx x.2 ≤ m_poolsize x.2) l ∧
  Forall (λ x, m_currentIdx x.2 = 0) fl.

(** The states of a pool none of whose chunks is empty. *)
Inductive wf_sized (t : TPoolAllocator) (h : Mem) : Prop :=
  | wfs_empty :
      m_current t = None → m_freeList t = None → mem_fresh h → wf_sized t h
  | wfs_linked l1 c l2 fl :
      linked t h l1 c l2 fl → cursors_ok (l1 ++ c :: l2) fl → wf_sized t h.

(** The cursors of any linked pool: a cursor fits [size_t]; it is not past
    the end of its chunk, unless the chunk has no elements at all; and the
    chunks on the free list are unused. *)
Definition cursors_in (l : list (nat * Pool)) (fl : list (nat * Pool)) : Prop :=
  Forall (λ x, 0 ≤ m_currentIdx x.2 < 2 ^ 64 ∧
               (m_poolsize x.2 = 0 ∨ m_currentIdx x.2 ≤ m_poolsize x.2)) l ∧
  Forall (λ x, m_currentIdx x.2 = 0) fl.

(** The states of a pool with such cursors. *)
Inductive wf_cursors (t : TPoolAllocator) (h : Mem) : Prop :=
  | wfc_empty :
      m_current t = None → m_freeList t = None → mem_fresh h → wf_cursors t h
  | wfc_linked l1 c l2 fl :
      linked t h l1 c l2 fl → cursors_in (l1 ++ c :: l2) fl → wf_cursors t h.

(** The states that a program can bring a pool into through the public
    member functions, with sizes that fit [size_t].  [resize] and [reset]
    find the chain through [m_first]; they are left out on a pool that was
    cleared, where [m_first] is stale. *)
Inductive reachable : TPoolAllocator → Mem → Prop :=
  | reach_default h :
      mem_fresh h → reachable TPoolAllocator_default h
  | reach_sized n h :
      mem_fresh h → 0 ≤ n < 2 ^ 64 →
      reachable (TPoolAllocator_sized n h).1 (TPoolAllocator_sized n h).2
  | reach_alloc t h p t' h' :
      reachable t h → alloc t h = Ok (p, t', h') → reachable t' h'
  | reach_release t h t' h' :
      reachable t h → release t h = Ok (t', h') → reachable t' h'
  | reach_clear t h t' h' :
      reachable t h → clear t h = Ok (t', h') → reachable t' h'
  | reach_reserve size t h t' h' :
      reachable t h → 0 ≤ size < 2 ^ 64 →
      reserve size t h = Ok (t', h') → reachable t' h'
  | reach_resize g t h t' h' :
      reachable t h → 0 ≤ g < 2 ^ 64 →
      m_current t ≠ None ∨ m_first t = None →
      resize g t h = Ok (t', h') → reachable t' h'
  | reach_reset t h :
      reachable t h →
      m_current t ≠ None ∨ m_first t = None →
      reachable (reset t) h.

(** The sizes of the chunks do not decrease along the primary chain. *)
Definition chain_sizes_monotone (t : TPoolAllocator) (h : Mem) : Prop :=
  ∃ l, is_chain (pools h) (m_first t) l ∧
       StronglySorted Z.le (m_poolsize <$> l.*2).

(** [&b[i]] is an element of a live array. *)
Definition is_slot (h : Mem) (p : nat * Z) : Prop :=
  ∃ n, arrays h !! p.1 = Some n ∧ 0 ≤ p.2 < n.

(** ** Auxiliary definitions *)

(** A chunk after [release]: the same node with its cursor at 0. *)
Definition zero (x : nat * Pool) : nat * Pool := (x.1, set_currentIdx 0 x.2).

(** The last two statements of [alloc]: take the address of the slot under
    the cursor of the active chunk and advance the cursor. *)
Definition alloc_slot (t : TPoolAllocator) (h : Mem)
  : result (option (nat * Z) * TPoolAllocator * Mem) :=
  let* cur1 := load h (m_current t) in
  match m_pool cur1 with
  | None => UB NullDeref
  | Some b =>
      let* h2 := store h (m_current t)
                   (set_currentIdx (wrap (m_currentIdx cur1 + 1))) in
      Ok (Some (b, m_currentIdx cur1), t, h2)
  end.

(** The pointers to the [k] slots of array [b] from index [i] on. *)
Definition slots (b : nat) (i : Z) (k : nat) : list (option (nat * Z)) :=
  (λ j, Some (b, i + Z.of_nat j)) <$> seq 0 k.

(** The condition [ok_live] on one chunk, in a form that computes. *)
Definition live (A : gmap nat Z) (s : nat * Z * option nat) : Prop :=
  match s.2 with
  | Some b => A !! b = Some s.1.2 ∧ 0 ≤ s.1.2 < 2 ^ 64
  | None => False
  end.

(** ** Definitions for the further properties *)



(** The number of slots of a list of chunks. *)
Fixpoint total_size (l : list (nat * Pool)) : Z :=
  match l with
  | [] => 0
  | x :: l' => m_poolsize x.2 + total_size l'
  end.

(** The states of a pool that is constructed with size [n] in the memory
    [h0] and then used through [alloc] and [release] only. *)
Inductive cycled (h0 : Mem) (n : Z) : TPoolAllocator → Mem → Prop :=
  | cyc_sized :
      cycled h0 n (TPoolAllocator_sized n h0).1 (TPoolAllocator_sized n h0).2
  | cyc_alloc t h p t' h' :
      cycled h0 n t h → alloc t h = Ok (p, t', h') → cycled h0 n t' h'
  | cyc_release t h t' h' :
      cycled h0 n t h → release t h = Ok (t', h') → cycled h0 n t' h'.

(** What such a pool keeps, in terms of the static part [sl] of its chain:
    all chunks have size [n], [m_capacity] counts them, the chunks and
    their arrays were created after [h0], and the rest of the memory is as
    in [h0]. *)
Record cyc_frame (h0 : Mem) (n : Z) (t : TPoolAllocator) (h : Mem)
    (sl : list (nat * Z * option nat)) : Prop := {
  cf_sizes : Forall (λ s, s.1.2 = n) sl;
  cf_cap : m_capacity t = wrap (n * Z.of_nat (length sl));
  cf_brk : (brk h0 ≤ brk h)%nat;
  cf_new : Forall (λ s, (brk h0 ≤ s.1.1)%nat ∧ ∀ b, s.2 = Some b → (brk h0 ≤ b)%nat) sl;
  cf_pools : ∀ a, a ∉ sl.*1.*1 → pools h !! a = pools h0 !! a;
  cf_arrays : ∀ b, Some b ∉ sl.*2 → arrays h !! b = arrays h0 !! b
}.

(** ** Two pools *)

(** The pool after [TPoolAllocator<T> p(4)] and five calls of [alloc]. *)
Definition two_chunks : TPoolAllocator * Mem :=
  (mkAlloc (Some 0%nat) (Some 2%nat) None 8,
   mkMem (<[0%nat := mkPool 4 (Some 1%nat) 4 (Some 2%nat)]>
            (<[2%nat := mkPool 4 (Some 3%nat) 1 None]> ∅))
         (<[1%nat := 4]> (<[3%nat := 4]> ∅)) 4%nat).

(** The same pool after [release] and four more calls of [alloc]: the head
    is full again and the second chunk is on the free list. *)
Definition head_full : TPoolAllocator * Mem :=
  (mkAlloc (Some 0%nat) (Some 0%nat) (Some 2%nat) 8,
   mkMem (<[0%nat := mkPool 4 (Some 1%nat) 4 (Some 2%nat)]>
            (<[2%nat := mkPool 4 (Some 3%nat) 0 None]> ∅))
         (<[1%nat := 4]> (<[3%nat := 4]> ∅)) 4%nat).

(** ** Lemmas on chains *)

Lemma is_seg_app P p l1 l2 q :
  is_seg P p (l1 ++ l2) q ↔ ∃ r, is_seg P p l1 r ∧ is_seg P r l2 q.
Proof.
  revert p. induction l1 as [|x l1 IH]; intros p; simpl.
  - split; [intros H; by exists p | by intros (r & -> & H)].
  - rewrite IH. split.
    + intros (-> & Hx & r & H1 & H2). by exists r.
    + intros (r & (-> & Hx & H1) & H2). split_and!; [done..|by exists r].
Qed.

Lemma is_seg_ext P P' p l q :
  (∀ x, x ∈ l → P' !! x.1 = P !! x.1) →
  is_seg P p l q → is_seg P' p l q.
Proof.
  revert p. induction l as [|x l IH]; intros p Hl; simpl; [done|].
  intros (-> & Hx & Hs). split_and!; [done| |].
  - rewrite Hl; [done | left].
  - apply IH; [|done]. intros y Hy. apply Hl. by right.
Qed.

Lemma is_seg_insert P p l q a pl :
  a ∉ l.*1 → is_seg P p l q → is_seg (<[a := pl]> P) p l q.
Proof.
  intros Ha. apply is_seg_ext. intros x Hx.
  apply lookup_insert_ne. intros ->. apply Ha.
  apply list_elem_of_fmap. by exists x.
Qed.

Lemma is_seg_delete P p l q a :
  a ∉ l.*1 → is_seg P p l q → is_seg (delete a P) p l q.
Proof.
  intros Ha. apply is_seg_ext. intros x Hx.
  apply lookup_delete_ne. intros ->. apply Ha.
  apply list_elem_of_fmap. by exists x.
Qed.

Lemma is_seg_lookup P p l q x :
  is_seg P p l q → x ∈ l → P !! x.1 = Some x.2.
Proof.
  revert p. induction l as [|y l IH]; intros p; simpl.
  - intros _ Hx. by apply elem_of_nil in Hx.
  - intros (_ & Hy & Hs) [->|Hx]%elem_of_cons; [done | by eapply IH].
Qed.

Lemma is_seg_inj P p l l' :
  is_chain P p l → is_chain P p l' → l = l'.
Proof.
  unfold is_chain. revert p l'. induction l as [|x l IH]; intros p [|y l']; simpl.
  - done.
  - intros -> (? & _); done.
  - intros (-> & _) ?; done.
  - intros (-> & Hx & Hs) ([= Hxy] & Hy & Hs').
    destruct x as [a pl], y as [a' pl']; simpl in *; simplify_eq.
    f_equal. by eapply IH.
Qed.

(** A chain of distinct nodes is no longer than the memory is large. *)
Lemma is_seg_length P p l q :
  is_seg P p l q → NoDup l.*1 → (length l ≤ size P)%nat.
Proof.
  intros Hs Hnd.
  rewrite <- (length_fmap fst l), <- (size_dom (D := gset nat) P).
  unfold size, set_size; simpl.
  apply submseteq_length, NoDup_submseteq; [done|].
  intros a (x & -> & Hx)%list_elem_of_fmap.
  apply elem_of_elements, elem_of_dom.
  rewrite (is_seg_lookup _ _ _ _ _ Hs Hx). by eexists.
Qed.

(** ** Lemmas on the chunk invariant *)

Lemma static_app l1 c l2 :
  static <$> (l1 ++ c :: l2) = (static <$> l1) ++ static c :: (static <$> l2).
Proof. by rewrite fmap_app, fmap_cons. Qed.

Lemma chunks_ok_arrays A A' sl :
  (∀ b, Some b ∈ sl.*2 → A' !! b = A !! b) →
  chunks_ok A sl → chunks_ok A' sl.
Proof.
  intros HA [H1 H2 H3 H4]. split; [done..| |done].
  rewrite Forall_forall in *. intros s Hs.
  destruct (H3 s Hs) as (b & Hb & ? & ?). exists b.
  split; [done|]. split; [|done].
  rewrite HA; [done|]. rewrite <- Hb. apply list_elem_of_fmap. by exists s.
Qed.

Lemma chunks_ok_drop_middle A s1 pre s2 :
  chunks_ok A (s1 ++ pre ++ s2) → chunks_ok A (s1 ++ s2).
Proof.
  intros [H1 H2 H3 H4]. split.
  - rewrite !fmap_app in *. rewrite !NoDup_app in *.
    destruct H1 as (? & Hd & ? & ? & ?). split_and!; [done| |done].
    intros x Hx Hx'. eapply Hd; [done|]. apply elem_of_app. by right.
  - rewrite !fmap_app in *. rewrite !NoDup_app in *.
    destruct H2 as (? & Hd & ? & ? & ?). split_and!; [done| |done].
    intros x Hx Hx'. eapply Hd; [done|]. apply elem_of_app. by right.
  - rewrite !Forall_app in *. tauto.
  - rewrite !fmap_app in *. rewrite !StronglySorted_app in *.
    destruct H4 as (Hd & ? & ? & ? & ?). split_and!; [|done..].
    intros x y Hx Hy. apply Hd; [done|]. apply elem_of_app. by right.
Qed.

Lemma chunks_ok_suffix A s1 s2 :
  chunks_ok A (s1 ++ s2) → chunks_ok A s2.
Proof. intros H. apply (chunks_ok_drop_middle A [] s1 s2). exact H. Qed.

Lemma chunks_ok_prefix A s1 s2 :
  chunks_ok A (s1 ++ s2) → chunks_ok A s1.
Proof.
  intros H. rewrite <- (app_nil_r s1).
  apply (chunks_ok_drop_middle A s1 s2 []). by rewrite app_nil_r.
Qed.

Lemma static_addrs (l : list (nat * Pool)) : (static <$> l).*1.*1 = l.*1.
Proof. rewrite <- !list_fmap_compose. by apply list_fmap_ext. Qed.

Lemma static_bufs (l : list (nat * Pool)) : (static <$> l).*2 = m_pool <$> l.*2.
Proof. rewrite <- !list_fmap_compose. by apply list_fmap_ext. Qed.

Lemma static_sizes (l : list (nat * Pool)) :
  (static <$> l).*1.*2 = m_poolsize <$> l.*2.
Proof. rewrite <- !list_fmap_compose. by apply list_fmap_ext. Qed.

Lemma chunks_ok_NoDup A (l : list (nat * Pool)) :
  chunks_ok A (static <$> l) → NoDup l.*1.
Proof. intros [H _ _ _]. by rewrite static_addrs in H. Qed.

Lemma chunks_ok_cons_inv A x (l : list (nat * Pool)) :
  chunks_ok A (static <$> (x :: l)) →
  (x.1 ∉ l.*1) ∧ (m_pool x.2 ∉ m_pool <$> l.*2) ∧ chunks_ok A (static <$> l).
Proof.
  intros Hok. pose proof (chunks_ok_suffix A [static x] _ Hok) as Hok'.
  destruct Hok as [H1 H2 _ _].
  rewrite static_addrs in H1. rewrite static_bufs in H2.
  rewrite fmap_cons in H1. rewrite 2!fmap_cons in H2.
  apply NoDup_cons in H1 as [? _]. apply NoDup_cons in H2 as [? _]. done.
Qed.

(** A chunk of the chain has a live array of its size. *)
Lemma chunks_ok_live A l x :
  chunks_ok A (static <$> l) → x ∈ l →
  ∃ b, m_pool x.2 = Some b ∧ A !! b = Some (m_poolsize x.2) ∧
       0 ≤ m_poolsize x.2 < 2 ^ 64.
Proof.
  intros [_ _ H _] Hx. rewrite Forall_forall in H.
  apply (H (static x)). apply list_elem_of_fmap. by exists x.
Qed.

(** Linking a new chunk, at least as large as the last one, to the end. *)
Lemma chunks_ok_snoc A s1 c a b g :
  chunks_ok A (s1 ++ [c]) →
  a ∉ (s1 ++ [c]).*1.*1 → A !! b = None → c.1.2 ≤ g < 2 ^ 64 →
  chunks_ok (<[b := g]> A) (s1 ++ [c; (a, g, Some b)]).
Proof.
  intros Hok Ha Hb Hg.
  assert (Hok' : chunks_ok (<[b := g]> A) (s1 ++ [c])).
  { eapply chunks_ok_arrays; [|exact Hok].
    intros b' Hb'. apply lookup_insert_ne. intros ->.
    apply list_elem_of_fmap in Hb' as (s & Hs & Hin).
    destruct Hok as [_ _ Hl _]. rewrite Forall_forall in Hl.
    destruct (Hl s Hin) as (b2 & Hb2 & Hl' & _). congruence. }
  destruct Hok' as [H1 H2 H3 H4], Hok as [_ _ H3' _].
  change (s1 ++ [c; (a, g, Some b)]) with (s1 ++ [c] ++ [(a, g, Some b)]).
  rewrite app_assoc. rewrite ?fmap_app in *. split.
  - rewrite !fmap_app. apply NoDup_app. split_and!; [done| |apply NoDup_singleton].
    intros x Hx ->%list_elem_of_singleton. by apply Ha.
  - rewrite !fmap_app. apply NoDup_app. split_and!; [done| |apply NoDup_singleton].
    intros x Hx ->%list_elem_of_singleton. rewrite <- fmap_app in Hx.
    apply list_elem_of_fmap in Hx as (s & Hs & Hin).
    rewrite Forall_forall in H3'. destruct (H3' s Hin) as (b' & Hb' & Hl & _).
    simpl in Hs. congruence.
  - apply Forall_app. split; [done|]. apply Forall_singleton. exists b. simpl.
    rewrite lookup_insert_eq. split; [done|]. split; [done|].
    rewrite Forall_app, Forall_singleton in H3.
    destruct H3 as (_ & b' & _ & _ & ? & _). lia.
  - rewrite !fmap_app. apply StronglySorted_app. split_and!; [|done|].
    + intros x y Hx ->%list_elem_of_singleton. simpl.
      apply StronglySorted_app in H4 as (Hd & _ & _).
      apply elem_of_app in Hx as [Hx|Hx].
      * etrans; [apply (Hd x c.1.2 Hx); by left | lia].
      * apply list_elem_of_singleton in Hx. simpl in Hx. subst. lia.
    + repeat constructor.
Qed.

(** ** The two loops *)

Lemma static_zero (l : list (nat * Pool)) : static <$> (zero <$> l) = static <$> l.
Proof. rewrite <- list_fmap_compose. by apply list_fmap_ext. Qed.

Lemma release_loop_spec fuel h p l :
  is_chain (pools h) p l → NoDup l.*1 → (length l < fuel)%nat →
  ∃ P', release_loop fuel h p = Ok (mkMem P' (arrays h) (brk h)) ∧
        is_chain P' p (zero <$> l) ∧
        (∀ a, a ∉ l.*1 → P' !! a = pools h !! a) ∧
        dom P' = dom (pools h).
Proof.
  unfold is_chain. revert fuel h p. induction l as [|[a pl] l IH]; intros fuel h p.
  - simpl. intros -> _ _. exists (pools h). by destruct h, fuel.
  - simpl. intros (-> & Ha & Hs) [Hnin Hnd]%NoDup_cons Hf.
    destruct fuel as [|fuel]; [lia|]. simpl.
    unfold store, load; simpl. rewrite Ha. simpl. rewrite lookup_insert_eq. simpl.
    set (h1 := mkMem _ _ _).
    destruct (IH fuel h1 (m_next pl)) as (P' & Hr & Hc & Hout & Hdom).
    { by apply is_seg_insert. }
    { done. }
    { lia. }
    exists P'. split_and!.
    + exact Hr.
    + done.
    + rewrite Hout; [|done]. apply lookup_insert_eq.
    + done.
    + intros a' Ha'. rewrite Hout.
      * simpl. apply lookup_insert_ne. intros ->. apply Ha'. left.
      * intros ?. apply Ha'. by right.
    + rewrite Hdom. simpl. rewrite dom_insert_L.
      assert (a ∈ dom (pools h)) by (apply elem_of_dom; eauto). set_solver.
Qed.

Lemma clear_loop_spec fuel h p l :
  is_chain (pools h) p l → chunks_ok (arrays h) (static <$> l) →
  (length l < fuel)%nat →
  ∃ P' A', clear_loop fuel h p = Ok (mkMem P' A' (brk h)) ∧
    (∀ a, P' !! a = if decide (a ∈ l.*1) then None else pools h !! a) ∧
    (∀ b, A' !! b = if decide (Some b ∈ m_pool <$> l.*2) then None else arrays h !! b).
Proof.
  unfold is_chain. revert fuel h p. induction l as [|[a pl] l IH]; intros fuel h p.
  - simpl. intros -> _ _. exists (pools h), (arrays h).
    split_and!; [by destruct h, fuel|done..].
  - simpl. intros (-> & Ha & Hs) Hok Hf.
    destruct fuel as [|fuel]; [lia|]. simpl.
    destruct (chunks_ok_live _ ((a, pl) :: l) (a, pl) Hok) as (b & Hb & Hlive & _);
      [left|]. simpl in Hb, Hlive.
    apply chunks_ok_cons_inv in Hok as (Hnin & Hbnin & Hok'). simpl in Hnin, Hbnin.
    unfold load, delete_Pool, delete_array; simpl. rewrite Ha. simpl.
    rewrite Hb, Hlive. simpl.
    set (h1 := mkMem _ _ _).
    destruct (IH fuel h1 (m_next pl)) as (P' & A' & Hr & HP & HA).
    { by apply is_seg_delete. }
    { eapply chunks_ok_arrays; [|exact Hok']. intros b' Hb'. simpl.
      apply lookup_delete_ne. intros ->. apply Hbnin.
      rewrite Hb. by rewrite static_bufs in Hb'. }
    { lia. }
    exists P', A'. split_and!; [exact Hr|..].
    + intros a'. rewrite HP. simpl.
      destruct (decide (a' = a)) as [->|Hne].
      * rewrite lookup_delete_eq. repeat case_decide; try done. set_solver.
      * rewrite lookup_delete_ne by done. repeat case_decide; try done; set_solver.
    + intros b'. rewrite HA. simpl. rewrite Hb in Hbnin.
      destruct (decide (b' = b)) as [->|Hne].
      * rewrite lookup_delete_eq. repeat case_decide; try done. set_solver.
      * rewrite lookup_delete_ne by done.
        case_decide as H1; case_decide as H2; try done.
        -- set_solver.
        -- apply elem_of_cons in H2 as [[= ->]|?]; done.
Qed.

(** ** The fuel of the loops *)

(** A result of the loop of [release] other than running out of fuel does
    not depend on the fuel. *)
Lemma release_loop_fuel n m h p r :
  release_loop n h p = r → r ≠ UB Diverges → (n ≤ m)%nat →
  release_loop m h p = r.
Proof.
  revert m h p. induction n as [|n IH]; intros m h p Hr Hne Hle.
  - destruct p; simpl in Hr; [by subst|]. by destruct m.
  - destruct m as [|m]; [lia|]. destruct p as [a|]; cbn [release_loop] in *; [|done].
    destruct (store h (Some a) (set_currentIdx 0)) as [h1|]; cbn [rbind] in *; [|done].
    destruct (load h1 (Some a)) as [cur|]; cbn [rbind] in *; [|done].
    apply IH; [done..|lia].
Qed.

(** The loop of [clear] deletes a node in each round, so it cannot go on
    for longer than the memory has nodes. *)
Lemma clear_loop_terminates fuel h p :
  (size (pools h) < fuel)%nat → clear_loop fuel h p ≠ UB Diverges.
Proof.
  revert h p. induction fuel as [|fuel IH]; intros h p Hf; [lia|].
  destruct p as [a|]; simpl; [|done].
  unfold load, delete_Pool. destruct (pools h !! a) as [pl|] eqn:Ha; simpl; [|done].
  destruct (delete_array (m_pool pl) h) as [h1|] eqn:Hd; simpl.
  - apply IH. simpl.
    assert (pools h1 = pools h) as ->.
    { unfold delete_array in Hd. destruct (m_pool pl); [|by simplify_eq].
      destruct (arrays h !! n); by simplify_eq. }
    assert (size (pools h) ≠ 0)%nat by (eapply map_size_ne_0_lookup_2; eauto).
    rewrite map_size_delete, Ha. simpl. lia.
  - unfold delete_array in Hd. destruct (m_pool pl); [|done].
    destruct (arrays h !! n); [done|]. by simplify_eq.
Qed.

(** ** Lemmas on memory and on linked pools *)

Lemma mem_fresh_store h a pl :
  is_Some (pools h !! a) → mem_fresh h →
  mem_fresh (mkMem (<[a := pl]> (pools h)) (arrays h) (brk h)).
Proof.
  intros Ha [H1 H2]. split; [|done]. simpl. intros a' Ha'. apply H1.
  destruct (decide (a = a')) as [<-|]; [done|]. by rewrite lookup_insert_ne in Ha'.
Qed.

Lemma mem_fresh_new_Pool n prev h :
  mem_fresh h → mem_fresh (new_Pool n prev h).2.
Proof.
  intros [H1 H2]. split; simpl; intros a Ha.
  - destruct (decide (brk h = a)) as [<-|]; [lia|].
    rewrite lookup_insert_ne in Ha by done. apply H1 in Ha. lia.
  - destruct (decide (S (brk h) = a)) as [<-|]; [lia|].
    rewrite lookup_insert_ne in Ha by done. apply H2 in Ha. lia.
Qed.

Lemma mem_fresh_None h a :
  mem_fresh h → (brk h ≤ a)%nat → pools h !! a = None ∧ arrays h !! a = None.
Proof.
  intros [H1 H2] Ha. split.
  - destruct (pools h !! a) eqn:E; [|done].
    assert (a < brk h)%nat by (apply H1; by rewrite E). lia.
  - destruct (arrays h !! a) eqn:E; [|done].
    assert (a < brk h)%nat by (apply H2; by rewrite E). lia.
Qed.

Lemma empty_mem_fresh : mem_fresh empty_mem.
Proof. split; intros a [x Hx]; simpl in Hx; by rewrite lookup_empty in Hx. Qed.

Lemma linked_iff t h l1 c l2 fl :
  linked t h l1 c l2 fl ↔
  is_chain (pools h) (m_first t) (l1 ++ c :: l2) ∧
  m_current t = Some c.1 ∧
  is_chain (pools h) (m_freeList t) fl ∧
  fl `suffix_of` l2 ∧
  chunks_ok (arrays h) (static <$> (l1 ++ c :: l2)) ∧
  mem_fresh h.
Proof.
  split.
  - intros [? ? ? ? ? ?]. by split_and!.
  - intros (? & ? & ? & ? & ? & ?). by split.
Qed.

(** The parts of a linked pool. *)
Lemma linked_inv t h l1 c l2 fl :
  linked t h l1 c l2 fl →
  is_seg (pools h) (m_first t) l1 (Some c.1) ∧ pools h !! c.1 = Some c.2 ∧
  is_chain (pools h) (m_next c.2) l2 ∧
  (c.1 ∉ l1.*1) ∧ (c.1 ∉ l2.*1) ∧ (∃ a, m_first t = Some a).
Proof.
  intros [Hc _ _ _ Hok _]. apply is_seg_app in Hc as (r & H1 & H2).
  simpl in H2. destruct H2 as (-> & Hx & H2).
  apply chunks_ok_NoDup in Hok. rewrite fmap_app, fmap_cons in Hok.
  apply NoDup_app in Hok as (_ & Hd & [? ?]%NoDup_cons).
  split_and!; try done.
  - intros Hin. apply (Hd _ Hin). left.
  - destruct l1 as [|x l1]; simpl in H1.
    + by exists c.1.
    + destruct H1 as [-> _]. by eexists.
Qed.

Lemma linked_free_notin t h l1 c l2 fl x :
  linked t h l1 c l2 fl → x ∈ fl → x.1 ≠ c.1 ∧ x.1 ∉ l1.*1.
Proof.
  intros Hl Hx. destruct (lk_suffix _ _ _ _ _ _ Hl) as [pre ->].
  pose proof (chunks_ok_NoDup _ _ (lk_chunks _ _ _ _ _ _ Hl)) as Hnd.
  rewrite fmap_app, fmap_cons, fmap_app in Hnd.
  apply NoDup_app in Hnd as (_ & Hd & [Hc _]%NoDup_cons).
  assert (x.1 ∈ pre.*1 ++ fl.*1).
  { apply elem_of_app. right. apply list_elem_of_fmap. by exists x. }
  split.
  - intros E. apply Hc. by rewrite <- E.
  - intros Hin. apply (Hd _ Hin). by right.
Qed.

(** The active chunk of a linked pool is a node with a live array of its
    size. *)
Lemma linked_current t h l1 c l2 fl :
  linked t h l1 c l2 fl →
  ∃ b, m_current t = Some c.1 ∧ pools h !! c.1 = Some c.2 ∧
       m_pool c.2 = Some b ∧ arrays h !! b = Some (m_poolsize c.2) ∧
       0 ≤ m_poolsize c.2 < 2 ^ 64.
Proof.
  intros Hl. destruct (linked_inv _ _ _ _ _ _ Hl) as (_ & Hc & _).
  destruct (chunks_ok_live _ _ c (lk_chunks _ _ _ _ _ _ Hl)) as (b & Hb & Hlive & Hsz).
  { apply elem_of_app. right. left. }
  exists b. split; [apply (lk_current _ _ _ _ _ _ Hl)|].
  repeat (split; [done|]). done.
Qed.

Lemma linked_monotone t h l1 c l2 fl :
  linked t h l1 c l2 fl → chain_sizes_monotone t h.
Proof.
  intros Hl. exists (l1 ++ c :: l2). split; [apply (lk_first _ _ _ _ _ _ Hl)|].
  rewrite <- static_sizes. apply (ok_sorted _ _ (lk_chunks _ _ _ _ _ _ Hl)).
Qed.

(** A chunk behind the active one is at least as large. *)
Lemma linked_later_size t h l1 c l2 fl x :
  linked t h l1 c l2 fl → x ∈ l2 → m_poolsize c.2 ≤ m_poolsize x.2.
Proof.
  intros Hl Hx. pose proof (ok_sorted _ _ (lk_chunks _ _ _ _ _ _ Hl)) as Hs.
  rewrite static_sizes, fmap_app, fmap_cons, fmap_app, fmap_cons in Hs.
  apply StronglySorted_app in Hs as (_ & _ & Hs).
  apply StronglySorted_cons in Hs as [Hs _]. rewrite Forall_forall in Hs.
  apply Hs. apply list_elem_of_fmap. exists x.2. split; [done|].
  apply list_elem_of_fmap. by exists x.
Qed.

Lemma wf_fresh t h : wf t h → mem_fresh h.
Proof. intros [_ _ ?|l1 c l2 fl Hl]; [done | apply (lk_fresh _ _ _ _ _ _ Hl)]. Qed.

Lemma wf_sized_wf t h : wf_sized t h → wf t h.
Proof.
  intros [? ? ?|l1 c l2 fl Hl _]; [by apply wf_empty | by eapply wf_linked].
Qed.

(** ** [resize] on a linked pool *)

(** A grow size below the active chunk's size: nothing happens. *)
Lemma resize_small g t h l1 c l2 fl :
  linked t h l1 c l2 fl → g < m_poolsize c.2 →
  resize g t h = Ok (t, h).
Proof.
  intros Hl Hg. destruct (linked_inv _ _ _ _ _ _ Hl) as (_ & Hc & _).
  unfold resize, load. rewrite (lk_current _ _ _ _ _ _ Hl), Hc. simpl.
  by rewrite (proj2 (Z.ltb_lt _ _) Hg).
Qed.

(** The free list is not empty: its first chunk becomes the active one, and
    it is linked behind the chunk that was active.  No node and no array is
    created, and [m_capacity] stays. *)
Lemma resize_reuse g t h l1 c l2 f fl :
  linked t h l1 c l2 (f :: fl) → m_poolsize c.2 ≤ g →
  let c' := (c.1, set_next (Some f.1) c.2) in
  let t' := mkAlloc (m_first t) (Some f.1) (m_next f.2) (m_capacity t) in
  let h' := mkMem (<[c.1 := c'.2]> (pools h)) (arrays h) (brk h) in
  resize g t h = Ok (t', h') ∧ linked t' h' (l1 ++ [c']) f fl fl.
Proof.
  intros Hl Hg c' t' h'.
  destruct (linked_inv _ _ _ _ _ _ Hl) as (H1 & Hc & H2 & Hn1 & Hn2 & a & Ha).
  pose proof (lk_free _ _ _ _ _ _ Hl) as Hf. destruct Hf as (Hf & Hfl & Hfs).
  destruct (linked_free_notin _ _ _ _ _ _ f Hl) as [Hfc Hfn]; [left|].
  assert (Hfln : c.1 ∉ (f :: fl).*1).
  { intros (x & E & Hx)%list_elem_of_fmap.
    destruct (linked_free_notin _ _ _ _ _ _ x Hl Hx) as [? _]. congruence. }
  split.
  - unfold resize, getFreePool, load, store.
    rewrite (lk_current _ _ _ _ _ _ Hl), Hc, Ha, Hf. simpl.
    rewrite (proj2 (Z.ltb_ge _ _) Hg), Hfl. simpl.
    rewrite Hc. simpl. rewrite lookup_insert_eq. simpl.
    unfold t'. by rewrite Ha.
  - destruct (lk_suffix _ _ _ _ _ _ Hl) as [pre Hpre]. split; simpl.
    + rewrite <- app_assoc. apply is_seg_app. exists (Some c.1). split.
      * by apply is_seg_insert.
      * simpl. split_and!; [done|apply lookup_insert_eq|done| |].
        -- rewrite lookup_insert_ne by done. exact Hfl.
        -- apply is_seg_insert; [|done]. intros ?. apply Hfln. by right.
    + done.
    + apply is_seg_insert; [|done]. intros ?. apply Hfln. by right.
    + done.
    + pose proof (lk_chunks _ _ _ _ _ _ Hl) as Hok.
      rewrite Hpre in Hok. rewrite <- app_assoc. simpl.
      rewrite static_app in Hok |- *. rewrite fmap_app in Hok.
      change (static c') with (static c).
      rewrite cons_middle, app_assoc in Hok |- *.
      by apply chunks_ok_drop_middle in Hok.
    + apply mem_fresh_store; [by rewrite Hc | apply (lk_fresh _ _ _ _ _ _ Hl)].
Qed.

(** The free list is empty: a new chunk of [growSize] elements is created
    and linked behind the active chunk; what was linked there before is
    dropped from the chain. *)
Lemma resize_fresh g t h l1 c l2 :
  linked t h l1 c l2 [] → m_poolsize c.2 ≤ g < 2 ^ 64 →
  let a := brk h in
  let b := S (brk h) in
  let n := (a, mkPool g (Some b) 0 None) in
  let c' := (c.1, set_next (Some a) c.2) in
  let t' := mkAlloc (m_first t) (Some a) None (wrap (m_capacity t + g)) in
  let h' := mkMem (<[c.1 := c'.2]> (<[a := n.2]> (pools h)))
              (<[b := g]> (arrays h)) (S (S (brk h))) in
  resize g t h = Ok (t', h') ∧ linked t' h' (l1 ++ [c']) n [] [].
Proof.
  intros Hl Hg a b n c' t' h'.
  destruct (linked_inv _ _ _ _ _ _ Hl) as (H1 & Hc & H2 & Hn1 & Hn2 & a0 & Ha).
  pose proof (lk_free _ _ _ _ _ _ Hl) as Hf. unfold is_chain in Hf; simpl in Hf.
  pose proof (lk_fresh _ _ _ _ _ _ Hl) as Hfr.
  assert (Hca : c.1 ≠ a).
  { intros E. destruct (mem_fresh_None h a Hfr) as [E' _]; [done|]. congruence. }
  assert (Hal : a ∉ (l1 ++ [c]).*1).
  { intros (x & E & Hx)%list_elem_of_fmap.
    destruct (mem_fresh_None h a Hfr) as [E' _]; [done|].
    assert (pools h !! x.1 = Some x.2); [|congruence].
    apply (is_seg_lookup _ _ _ _ _ (lk_first _ _ _ _ _ _ Hl)).
    apply elem_of_app in Hx as [?| ->%list_elem_of_singleton]; apply elem_of_app;
      [by left | right; left]. }
  split.
  - unfold resize, getFreePool, load, store.
    rewrite (lk_current _ _ _ _ _ _ Hl), Hc, Ha, Hf. simpl.
    rewrite (proj2 (Z.ltb_ge _ _) (proj1 Hg)). simpl. fold a.
    rewrite (lk_current _ _ _ _ _ _ Hl).
    rewrite lookup_insert_ne by done. rewrite Hc. simpl.
    rewrite lookup_insert_eq. simpl. unfold t'. by rewrite Hf.
  - split; simpl.
    + rewrite <- app_assoc. apply is_seg_app. exists (Some c.1). split.
      * apply is_seg_insert; [done|]. apply is_seg_insert; [|done].
        intros ?. apply Hal. rewrite fmap_app. apply elem_of_app. by left.
      * simpl. split_and!; [done|apply lookup_insert_eq|done| |done].
        rewrite lookup_insert_ne by done. apply lookup_insert_eq.
    + done.
    + done.
    + done.
    + pose proof (lk_chunks _ _ _ _ _ _ Hl) as Hok.
      rewrite static_app, cons_middle, app_assoc in Hok.
      apply chunks_ok_prefix in Hok.
      rewrite <- app_assoc. simpl. rewrite static_app. simpl.
      change (static c') with (static c).
      change (static n) with (a, g, Some b).
      apply chunks_ok_snoc; [done| | |done].
      * change [static c] with (static <$> [c]).
        by rewrite <- fmap_app, static_addrs.
      * by destruct (mem_fresh_None h b Hfr) as [_ ?]; [unfold b, a; lia|].
    + destruct Hfr as [F1 F2]. split; simpl; intros x Hx.
      * destruct (decide (c.1 = x)) as [<-|]; [assert (c.1 < brk h)%nat; [apply F1; by rewrite Hc | lia]|].
        rewrite lookup_insert_ne in Hx by done.
        destruct (decide (a = x)) as [<-|]; [unfold a; lia|].
        rewrite lookup_insert_ne in Hx by done. apply F1 in Hx. lia.
      * destruct (decide (b = x)) as [<-|]; [unfold b; lia|].
        rewrite lookup_insert_ne in Hx by done. apply F2 in Hx. lia.
Qed.

(** ** [alloc] on a linked pool *)

(** Writing another cursor into the active chunk keeps the pool linked. *)
Lemma linked_set_currentIdx i t h l1 c l2 fl :
  linked t h l1 c l2 fl →
  linked t (mkMem (<[c.1 := set_currentIdx i c.2]> (pools h)) (arrays h) (brk h))
    l1 (c.1, set_currentIdx i c.2) l2 fl.
Proof.
  intros Hl.
  destruct (linked_inv _ _ _ _ _ _ Hl) as (H1 & Hc & H2 & Hn1 & Hn2 & a & Ha).
  assert (Hfln : c.1 ∉ fl.*1).
  { intros (x & E & Hx)%list_elem_of_fmap.
    destruct (linked_free_notin _ _ _ _ _ _ x Hl Hx) as [? _]. congruence. }
  split; simpl.
  - apply is_seg_app. exists (Some c.1). split; [by apply is_seg_insert|].
    simpl. split_and!; [done|apply lookup_insert_eq|by apply is_seg_insert].
  - apply (lk_current _ _ _ _ _ _ Hl).
  - apply is_seg_insert; [done|]. apply (lk_free _ _ _ _ _ _ Hl).
  - apply (lk_suffix _ _ _ _ _ _ Hl).
  - pose proof (lk_chunks _ _ _ _ _ _ Hl) as Hok. by rewrite static_app in Hok |- *.
  - apply mem_fresh_store; [by rewrite Hc | apply (lk_fresh _ _ _ _ _ _ Hl)].
Qed.

Lemma alloc_slot_spec t h l1 c l2 fl :
  linked t h l1 c l2 fl →
  ∃ b, m_pool c.2 = Some b ∧ arrays h !! b = Some (m_poolsize c.2) ∧
    let c' := (c.1, set_currentIdx (wrap (m_currentIdx c.2 + 1)) c.2) in
    let h' := mkMem (<[c.1 := c'.2]> (pools h)) (arrays h) (brk h) in
    alloc_slot t h = Ok (Some (b, m_currentIdx c.2), t, h') ∧
    linked t h' l1 c' l2 fl.
Proof.
  intros Hl.
  destruct (linked_inv _ _ _ _ _ _ Hl) as (_ & Hc & _).
  destruct (chunks_ok_live _ _ c (lk_chunks _ _ _ _ _ _ Hl)) as (b & Hb & Hlive & _).
  { apply elem_of_app. right. left. }
  exists b. split; [done|]. split; [done|]. split; [|by apply linked_set_currentIdx].
  unfold alloc_slot, load, store. rewrite (lk_current _ _ _ _ _ _ Hl), Hc. simpl.
  by rewrite Hb.
Qed.

Lemma alloc_unfold t h l1 c l2 fl :
  linked t h l1 c l2 fl →
  alloc t h =
    let* (t1, h1) :=
      (if m_currentIdx c.2 =? m_poolsize c.2
       then resize (m_poolsize c.2) t h else Ok (t, h)) in
    alloc_slot t1 h1.
Proof.
  intros Hl. destruct (linked_inv _ _ _ _ _ _ Hl) as (_ & Hc & _).
  unfold alloc, alloc_slot. rewrite (lk_current _ _ _ _ _ _ Hl).
  unfold load at 1. rewrite Hc. simpl.
  destruct (if m_currentIdx c.2 =? m_poolsize c.2 then _ else _) as [[t1 h1]|]; done.
Qed.

(** The active chunk has room. *)
Lemma alloc_room t h l1 c l2 fl :
  linked t h l1 c l2 fl → m_currentIdx c.2 ≠ m_poolsize c.2 →
  ∃ b, m_pool c.2 = Some b ∧ arrays h !! b = Some (m_poolsize c.2) ∧
    let c' := (c.1, set_currentIdx (wrap (m_currentIdx c.2 + 1)) c.2) in
    let h' := mkMem (<[c.1 := c'.2]> (pools h)) (arrays h) (brk h) in
    alloc t h = Ok (Some (b, m_currentIdx c.2), t, h') ∧
    linked t h' l1 c' l2 fl.
Proof.
  intros Hl Hne. rewrite (alloc_unfold _ _ _ _ _ _ Hl).
  rewrite (proj2 (Z.eqb_neq _ _) Hne). simpl. by apply alloc_slot_spec.
Qed.

(** The active chunk is full and the free list is not empty. *)
Lemma alloc_full_reuse t h l1 c l2 f fl :
  linked t h l1 c l2 (f :: fl) → m_currentIdx c.2 = m_poolsize c.2 →
  ∃ b, m_pool f.2 = Some b ∧ arrays h !! b = Some (m_poolsize f.2) ∧
    let c' := (c.1, set_next (Some f.1) c.2) in
    let f' := (f.1, set_currentIdx (wrap (m_currentIdx f.2 + 1)) f.2) in
    let t' := mkAlloc (m_first t) (Some f.1) (m_next f.2) (m_capacity t) in
    let h' := mkMem (<[f.1 := f'.2]> (<[c.1 := c'.2]> (pools h))) (arrays h) (brk h) in
    alloc t h = Ok (Some (b, m_currentIdx f.2), t', h') ∧
    linked t' h' (l1 ++ [c']) f' fl fl.
Proof.
  intros Hl Hfull. rewrite (alloc_unfold _ _ _ _ _ _ Hl).
  rewrite (proj2 (Z.eqb_eq _ _) Hfull).
  destruct (resize_reuse (m_poolsize c.2) _ _ _ _ _ _ _ Hl) as [-> Hl']; [lia|].
  simpl. destruct (alloc_slot_spec _ _ _ _ _ _ Hl') as (b & Hb & Hlive & Hr & Hl'').
  exists b. by split_and!.
Qed.

(** The active chunk is full and the free list is empty. *)
Lemma alloc_full_fresh t h l1 c l2 :
  linked t h l1 c l2 [] → m_currentIdx c.2 = m_poolsize c.2 →
  let g := m_poolsize c.2 in
  let a := brk h in
  let b := S (brk h) in
  let n := (a, mkPool g (Some b) (wrap (0 + 1)) None) in
  let c' := (c.1, set_next (Some a) c.2) in
  let t' := mkAlloc (m_first t) (Some a) None (wrap (m_capacity t + g)) in
  let h' := mkMem (<[a := n.2]> (<[c.1 := c'.2]> (<[a := mkPool g (Some b) 0 None]> (pools h))))
              (<[b := g]> (arrays h)) (S (S (brk h))) in
  alloc t h = Ok (Some (b, 0), t', h') ∧ linked t' h' (l1 ++ [c']) n [] [].
Proof.
  intros Hl Hfull g a b n c' t' h'. rewrite (alloc_unfold _ _ _ _ _ _ Hl).
  rewrite (proj2 (Z.eqb_eq _ _) Hfull).
  destruct (chunks_ok_live _ _ c (lk_chunks _ _ _ _ _ _ Hl)) as (_ & _ & _ & Hsz).
  { apply elem_of_app. right. left. }
  destruct (resize_fresh (m_poolsize c.2) _ _ _ _ _ Hl) as [-> Hl']; [lia|].
  simpl. destruct (alloc_slot_spec _ _ _ _ _ _ Hl') as (b' & Hb & Hlive & Hr & Hl'').
  simpl in Hb. injection Hb as <-. by split.
Qed.

(** [alloc] never faults on a pool, and keeps it a pool. *)
Lemma alloc_wf t h :
  wf t h →
  ∃ p t' h',
    alloc t h = Ok (p, t', h') ∧ (p = None ↔ m_current t = None) ∧ wf t' h'.
Proof.
  intros [Hc Hf Hfr|l1 c l2 fl Hl].
  { exists None, t, h. unfold alloc. rewrite Hc.
    split_and!; [done|done|by apply wf_empty]. }
  pose proof (lk_current _ _ _ _ _ _ Hl) as Hcurrent.
  destruct (decide (m_currentIdx c.2 = m_poolsize c.2)) as [Hfull|Hroom].
  - destruct fl as [|f fl].
    + destruct (alloc_full_fresh _ _ _ _ _ Hl Hfull) as [Hr Hl'].
      eexists _, _, _. split; [exact Hr|]. split; [by rewrite Hcurrent|].
      by eapply wf_linked.
    + destruct (alloc_full_reuse _ _ _ _ _ _ _ Hl Hfull) as (b & _ & _ & Hr & Hl').
      eexists _, _, _. split; [exact Hr|]. split; [by rewrite Hcurrent|].
      by eapply wf_linked.
  - destruct (alloc_room _ _ _ _ _ _ Hl Hroom) as (b & _ & _ & Hr & Hl').
    eexists _, _, _. split; [exact Hr|]. split; [by rewrite Hcurrent|].
    by eapply wf_linked.
Qed.

(** In a pool none of whose chunks is empty, the pointer that [alloc]
    returns is the address of the element under the cursor of the chunk
    that is active after the call, an element of that chunk's array, and
    this cursor advances by one.  The pool stays such a pool. *)
Lemma alloc_sized t h :
  wf_sized t h →
  ∃ p t' h',
    alloc t h = Ok (p, t', h') ∧
    (p = None ↔ m_current t = None) ∧
    (∀ b i, p = Some (b, i) →
       is_slot h' (b, i) ∧
       ∃ a pl, m_current t' = Some a ∧ pools h' !! a = Some pl ∧
               m_pool pl = Some b ∧ arrays h' !! b = Some (m_poolsize pl) ∧
               0 ≤ i < m_poolsize pl ∧ m_currentIdx pl = i + 1) ∧
    wf_sized t' h'.
Proof.
  intros [Hc Hf Hfr|l1 c l2 fl Hl [Hcur Hfree]].
  { exists None, t, h. unfold alloc. rewrite Hc.
    split_and!; [done|done|done|by apply wfs_empty]. }
  destruct (linked_current _ _ _ _ _ _ Hl) as (bc & Hcurrent & _ & _ & _ & Hsz).
  rewrite Forall_app, Forall_cons in Hcur. destruct Hcur as (Hcur1 & Hcc & Hcur2).
  destruct (decide (m_currentIdx c.2 = m_poolsize c.2)) as [Hfull|Hroom].
  - destruct fl as [|f fl].
    + (* a new chunk *)
      destruct (alloc_full_fresh _ _ _ _ _ Hl Hfull) as [Hr Hl'].
      assert (wrap (0 + 1) = 1) as Hw by done. rewrite Hw in *.
      destruct (linked_current _ _ _ _ _ _ Hl') as (b' & Hcur' & Hlook & Hb' & Hlive' & _).
      cbn [fst snd m_pool m_poolsize] in Hb', Hlive'. injection Hb' as <-.
      eexists _, _, _. split; [exact Hr|].
      split; [by rewrite Hcurrent|]. split.
      * intros b i [= <- <-]. split.
        { eexists. split; [exact Hlive'|]. simpl. lia. }
        eexists _, _. split; [exact Hcur'|]. split; [exact Hlook|].
        split; [done|]. split; [exact Hlive'|]. simpl. lia.
      * eapply wfs_linked; [exact Hl'|]. split; [|done].
        rewrite <- app_assoc. simpl. rewrite Forall_app, !Forall_cons.
        split_and!; try done; simpl; lia.
    + (* the first chunk of the free list *)
      destruct (alloc_full_reuse _ _ _ _ _ _ _ Hl Hfull) as (b & Hb & Hlive & Hr & Hl').
      apply Forall_cons in Hfree as [Hf0 Hfree].
      destruct (lk_suffix _ _ _ _ _ _ Hl) as [pre ->].
      rewrite Forall_app, Forall_cons in Hcur2. destruct Hcur2 as (_ & Hfc & Hcur2).
      assert (wrap (m_currentIdx f.2 + 1) = 1) as Hw by (by rewrite Hf0).
      rewrite Hw in *.
      destruct (linked_current _ _ _ _ _ _ Hl') as (b' & Hcur' & Hlook & Hb' & Hlive' & _).
      cbn [fst snd m_pool m_poolsize set_currentIdx] in Hb', Hlive'.
      rewrite Hb in Hb'. injection Hb' as <-.
      eexists _, _, _. split; [exact Hr|].
      split; [by rewrite Hcurrent|]. split.
      * intros b' i [= <- <-]. split.
        { eexists. split; [exact Hlive'|]. simpl. lia. }
        eexists _, _. split; [exact Hcur'|]. split; [exact Hlook|].
        split; [done|]. split; [exact Hlive'|]. simpl. lia.
      * eapply wfs_linked; [exact Hl'|]. split; [|done].
        rewrite <- app_assoc. simpl. rewrite Forall_app, !Forall_cons.
        split_and!; try done; simpl; lia.
  - (* room in the active chunk *)
    destruct (alloc_room _ _ _ _ _ _ Hl Hroom) as (b & Hb & Hlive & Hr & Hl').
    assert (wrap (m_currentIdx c.2 + 1) = m_currentIdx c.2 + 1) as Hw.
    { unfold wrap. apply Z.mod_small. lia. }
    rewrite Hw in *.
    destruct (linked_current _ _ _ _ _ _ Hl') as (b' & Hcur' & Hlook & Hb' & Hlive' & _).
    cbn [fst snd m_pool m_poolsize set_currentIdx] in Hb', Hlive'.
    rewrite Hb in Hb'. injection Hb' as <-.
    eexists _, _, _. split; [exact Hr|].
    split; [by rewrite Hcurrent|]. split.
    + intros b' i [= <- <-]. split.
      { eexists. split; [exact Hlive'|]. simpl. lia. }
      eexists _, _. split; [exact Hcur'|]. split; [exact Hlook|].
      split; [done|]. split; [exact Hlive'|]. simpl. lia.
    + eapply wfs_linked; [exact Hl'|]. split; [|done].
      rewrite Forall_app, !Forall_cons. split_and!; try done; simpl; lia.
Qed.

(** ** [release], [clear], [reserve], [reset] and the constructors *)

Lemma linked_fuel t h l1 c l2 fl :
  linked t h l1 c l2 fl → (length (l1 ++ c :: l2) < fuel_of h)%nat.
Proof.
  intros Hl. unfold fuel_of. apply Nat.lt_succ_r.
  eapply is_seg_length; [apply (lk_first _ _ _ _ _ _ Hl)|].
  apply (chunks_ok_NoDup _ _ (lk_chunks _ _ _ _ _ _ Hl)).
Qed.

(** [release] keeps the nodes and the arrays, zeroes the cursors of the
    chain, and makes the head [x] the active chunk and the rest of the chain
    the free list. *)
Lemma release_linked t h l1 c l2 fl :
  linked t h l1 c l2 fl →
  ∃ x tl P',
    l1 ++ c :: l2 = x :: tl ∧
    let t' := mkAlloc (m_first t) (m_first t) (m_next x.2) (m_capacity t) in
    let h' := mkMem P' (arrays h) (brk h) in
    release t h = Ok (t', h') ∧
    linked t' h' [] (zero x) (zero <$> tl) (zero <$> tl) ∧
    dom P' = dom (pools h) ∧
    (∀ a, a ∉ (l1 ++ c :: l2).*1 → P' !! a = pools h !! a).
Proof.
  intros Hl.
  destruct (release_loop_spec (fuel_of h) h (m_first t) (l1 ++ c :: l2))
    as (P' & Hr & Hc & Hout & Hdom).
  { apply (lk_first _ _ _ _ _ _ Hl). }
  { apply (chunks_ok_NoDup _ _ (lk_chunks _ _ _ _ _ _ Hl)). }
  { by eapply linked_fuel. }
  assert (∃ x tl, l1 ++ c :: l2 = x :: tl) as (x & tl & E).
  { destruct l1; simpl; eauto. }
  exists x, tl, P'. split; [done|]. rewrite E in Hc, Hout.
  rewrite fmap_cons in Hc. destruct Hc as (Hx & Hx' & Hc). simpl in Hx'.
  split_and!; [|split|done|by rewrite E].
  - unfold release. rewrite (lk_current _ _ _ _ _ _ Hl), Hr. simpl.
    unfold load. rewrite Hx. simpl. by rewrite Hx'.
  - simpl. by rewrite Hx.
  - simpl. by rewrite Hx.
  - exact Hc.
  - done.
  - simpl. change (static (zero x) :: _) with (static <$> (zero <$> (x :: tl))).
    rewrite static_zero, <- E. apply (lk_chunks _ _ _ _ _ _ Hl).
  - destruct (lk_fresh _ _ _ _ _ _ Hl) as [F1 F2]. split; [|done]. simpl.
    intros a Ha. apply F1. by rewrite <- !elem_of_dom, Hdom in *.
Qed.

(** [clear] deletes the nodes of the chain and their arrays, and nothing
    else; [m_first] and [m_capacity] keep their values. *)
Lemma clear_linked t h l1 c l2 fl :
  linked t h l1 c l2 fl →
  ∃ P' A',
    let t' := mkAlloc (m_first t) None None (m_capacity t) in
    let h' := mkMem P' A' (brk h) in
    clear t h = Ok (t', h') ∧
    (∀ a, P' !! a = if decide (a ∈ (l1 ++ c :: l2).*1) then None else pools h !! a) ∧
    (∀ b, A' !! b = if decide (Some b ∈ m_pool <$> (l1 ++ c :: l2).*2)
                    then None else arrays h !! b) ∧
    mem_fresh h'.
Proof.
  intros Hl.
  destruct (clear_loop_spec (fuel_of h) h (m_first t) (l1 ++ c :: l2))
    as (P' & A' & Hr & HP & HA).
  { apply (lk_first _ _ _ _ _ _ Hl). }
  { apply (lk_chunks _ _ _ _ _ _ Hl). }
  { by eapply linked_fuel. }
  exists P', A'. split_and!; [|done..|].
  - unfold clear. by rewrite (lk_current _ _ _ _ _ _ Hl), Hr.
  - destruct (lk_fresh _ _ _ _ _ _ Hl) as [F1 F2]. split; simpl; intros a Ha.
    + apply F1. rewrite HP in Ha. case_decide; [by destruct Ha | done].
    + apply F2. rewrite HA in Ha. case_decide; [by destruct Ha | done].
Qed.

(** After [clear] on a pool with an active chunk, [m_first] is not null and
    points to a deleted node. *)
Lemma clear_linked_stale t h l1 c l2 fl :
  linked t h l1 c l2 fl →
  ∃ t' h', clear t h = Ok (t', h') ∧
    m_first t' = m_first t ∧ load h' (m_first t') = UB UseAfterFree ∧
    capacity t' = capacity t.
Proof.
  intros Hl. destruct (clear_linked _ _ _ _ _ _ Hl) as (P' & A' & Hr & HP & _).
  eexists _, _. split; [exact Hr|]. split_and!; [done| |done].
  assert (∃ x tl, l1 ++ c :: l2 = x :: tl) as (x & tl & E).
  { destruct l1; simpl; eauto. }
  pose proof (lk_first _ _ _ _ _ _ Hl) as Hc. rewrite E in Hc.
  destruct Hc as (Hx & _). unfold load. simpl. rewrite Hx, HP, E.
  rewrite decide_True; [done|]. rewrite fmap_cons. left.
Qed.

(** A pool without an active chunk is left alone by [clear]. *)
Lemma clear_empty t h : m_current t = None → clear t h = Ok (t, h).
Proof. intros E. unfold clear. by rewrite E. Qed.

(** After [clear] there is no active chunk and no free list. *)
Lemma clear_wf t h : wf t h → ∃ t' h', clear t h = Ok (t', h') ∧
  m_current t' = None ∧ m_freeList t' = None ∧ mem_fresh h' ∧ brk h' = brk h ∧
  m_first t' = m_first t ∧ m_capacity t' = m_capacity t.
Proof.
  intros [Hc Hf Hfr|l1 c l2 fl Hl].
  - exists t, h. by rewrite clear_empty.
  - destruct (clear_linked _ _ _ _ _ _ Hl) as (P' & A' & Hr & _ & _ & Hfr).
    eexists _, _. split; [exact Hr|]. by split_and!.
Qed.

(** [reserve]: whatever [clear] leaves, the pool is then one new chunk of
    [size] elements.  The array that the [Pool] constructor allocated (at
    [S a]) is replaced by a second one (at [S (S a)]) and stays allocated. *)
Lemma reserve_wf size t h :
  wf t h → 0 ≤ size < 2 ^ 64 →
  ∃ t1 h1,
    clear t h = Ok (t1, h1) ∧
    let a := brk h in
    let n := (a, mkPool size (Some (S (S a))) 0 None) in
    let t' := mkAlloc (Some a) (Some a) None size in
    let h' := mkMem (<[a := n.2]> (pools h1))
                (<[S (S a) := size]> (<[S a := size]> (arrays h1))) (S (S (S a))) in
    reserve size t h = Ok (t', h') ∧ linked t' h' [] n [] [].
Proof.
  intros Hwf Hsz.
  destruct (clear_wf _ _ Hwf) as (t1 & h1 & Hc & Hcur & Hfl & Hfr & Hbrk & _).
  exists t1, h1. split; [done|]. intros a n t' h'.
  destruct (mem_fresh_None h1 a Hfr) as [Ea _]; [unfold a; lia|].
  destruct (mem_fresh_None h1 (S (S a)) Hfr) as [_ Eb]; [unfold a; lia|].
  split.
  - unfold reserve. rewrite Hc. simpl. unfold store. simpl.
    rewrite Hbrk. fold a. rewrite lookup_insert_eq. simpl.
    rewrite lookup_insert_eq. simpl. rewrite !insert_insert_eq.
    unfold t', h'. by rewrite Hfl.
  - split; simpl.
    + split_and!; [done|apply lookup_insert_eq|done].
    + done.
    + done.
    + done.
    + split; simpl.
      * apply NoDup_singleton.
      * apply NoDup_singleton.
      * apply Forall_singleton. exists (S (S a)). simpl.
        by rewrite lookup_insert_eq.
      * repeat constructor.
    + destruct Hfr as [F1 F2]. rewrite Hbrk in F1, F2. fold a in F1, F2.
      split; simpl; intros x Hx.
      * destruct (decide (a = x)) as [<-|]; [lia|].
        rewrite lookup_insert_ne in Hx by done. apply F1 in Hx. lia.
      * destruct (decide (S (S a) = x)) as [<-|]; [lia|].
        rewrite lookup_insert_ne in Hx by done.
        destruct (decide (S a = x)) as [<-|]; [lia|].
        rewrite lookup_insert_ne in Hx by done. apply F2 in Hx. lia.
Qed.

(** [reset] makes the head the active chunk and touches nothing else. *)
Lemma reset_linked t h l1 c l2 fl x tl :
  linked t h l1 c l2 fl → l1 ++ c :: l2 = x :: tl →
  linked (reset t) h [] x tl fl.
Proof.
  intros Hl E. pose proof (lk_first _ _ _ _ _ _ Hl) as Hc. rewrite E in Hc.
  split; cbn [app reset m_first m_current m_freeList].
  - done.
  - by destruct Hc as [-> _].
  - apply (lk_free _ _ _ _ _ _ Hl).
  - etrans; [apply (lk_suffix _ _ _ _ _ _ Hl)|].
    destruct l1 as [|y l1]; simpl in E; simplify_eq; [done|].
    apply suffix_app_r, suffix_cons_r. done.
  - rewrite <- E. apply (lk_chunks _ _ _ _ _ _ Hl).
  - apply (lk_fresh _ _ _ _ _ _ Hl).
Qed.

Lemma default_wf h : mem_fresh h → wf TPoolAllocator_default h.
Proof. intros Hfr. by apply wf_empty. Qed.

Lemma sized_linked n h :
  mem_fresh h → 0 ≤ n < 2 ^ 64 →
  let x := (brk h, mkPool n (Some (S (brk h))) 0 None) in
  let t' := mkAlloc (Some (brk h)) (Some (brk h)) None n in
  let h' := mkMem (<[brk h := x.2]> (pools h)) (<[S (brk h) := n]> (arrays h))
              (S (S (brk h))) in
  TPoolAllocator_sized n h = (t', h') ∧ linked t' h' [] x [] [].
Proof.
  intros Hfr Hn x t' h'. split.
  - unfold TPoolAllocator_sized, t'. simpl. unfold wrap.
    by rewrite Z.mod_small by lia.
  - split; simpl.
    + split_and!; [done|apply lookup_insert_eq|done].
    + done.
    + done.
    + done.
    + split; simpl.
      * apply NoDup_singleton.
      * apply NoDup_singleton.
      * apply Forall_singleton. exists (S (brk h)). simpl.
        by rewrite lookup_insert_eq.
      * repeat constructor.
    + apply (mem_fresh_new_Pool n None h Hfr).
Qed.

(** ** Runs of [alloc] *)

Lemma alloc_n_app k1 k2 t h :
  alloc_n (k1 + k2) t h =
    let* (ps1, t1, h1) := alloc_n k1 t h in
    let* (ps2, t2, h2) := alloc_n k2 t1 h1 in
    Ok (ps1 ++ ps2, t2, h2).
Proof.
  revert t h. induction k1 as [|k1 IH]; intros t h; simpl.
  - by destruct (alloc_n k2 t h) as [[[ps2 t2] h2]|].
  - destruct (alloc t h) as [[[p t1] h1]|]; simpl; [|done].
    rewrite IH. destruct (alloc_n k1 t1 h1) as [[[ps1 t2] h2]|]; simpl; [|done].
    by destruct (alloc_n k2 t2 h2) as [[[ps2 t3] h3]|].
Qed.

Lemma alloc_n_S k t h :
  alloc_n (S k) t h =
    let* (ps, t1, h1) := alloc_n k t h in
    let* (p, t2, h2) := alloc t1 h1 in
    Ok (ps ++ [p], t2, h2).
Proof.
  replace (S k) with (k + 1)%nat by lia. rewrite alloc_n_app.
  destruct (alloc_n k t h) as [[[ps t1] h1]|]; simpl; [|done].
  by destruct (alloc t1 h1) as [[[p t2] h2]|].
Qed.

Lemma slots_S b i k : slots b i (S k) = Some (b, i) :: slots b (i + 1) k.
Proof.
  unfold slots. simpl. rewrite Z.add_0_r. f_equal.
  rewrite <- seq_shift, <- list_fmap_compose. apply list_fmap_ext.
  intros _ j _. simpl. do 2 f_equal. lia.
Qed.

Lemma elem_of_slots p b i k :
  p ∈ slots b i k ↔ ∃ j, p = Some (b, j) ∧ i ≤ j < i + Z.of_nat k.
Proof.
  unfold slots. rewrite list_elem_of_fmap. split.
  - intros (j & -> & Hj%elem_of_seq). eexists. split; [done|lia].
  - intros (j & -> & Hj). exists (Z.to_nat (j - i)). split.
    + do 2 f_equal. lia.
    + apply elem_of_seq. lia.
Qed.

Lemma NoDup_slots b i k : NoDup (slots b i k).
Proof.
  unfold slots. apply NoDup_fmap_2; [|apply NoDup_seq].
  intros j1 j2 [= E]. lia.
Qed.

(** While the active chunk has room, [alloc] hands out its slots one after
    the other and nothing else changes. *)
Lemma alloc_n_room k t h l1 c l2 fl :
  linked t h l1 c l2 fl →
  0 ≤ m_currentIdx c.2 → m_currentIdx c.2 + Z.of_nat k ≤ m_poolsize c.2 →
  ∃ b P',
    m_pool c.2 = Some b ∧ arrays h !! b = Some (m_poolsize c.2) ∧
    alloc_n k t h =
      Ok (slots b (m_currentIdx c.2) k, t, mkMem P' (arrays h) (brk h)) ∧
    linked t (mkMem P' (arrays h) (brk h)) l1
      (c.1, set_currentIdx (m_currentIdx c.2 + Z.of_nat k) c.2) l2 fl ∧
    dom P' = dom (pools h).
Proof.
  revert h c. induction k as [|k IH]; intros h c Hl H0 Hk.
  - destruct (chunks_ok_live _ _ c (lk_chunks _ _ _ _ _ _ Hl)) as (b & Hb & Hlive & _).
    { apply elem_of_app. right. left. }
    exists b, (pools h). split_and!; [done|done| | |done].
    + by destruct h.
    + rewrite Z.add_0_r. by destruct h, c as [a []].
  - destruct (chunks_ok_live _ _ c (lk_chunks _ _ _ _ _ _ Hl)) as (b0 & _ & _ & Hsz).
    { apply elem_of_app. right. left. }
    destruct (alloc_room _ _ _ _ _ _ Hl) as (b & Hb & Hlive & Hr & Hl1); [lia|].
    unfold wrap in Hr, Hl1. rewrite Z.mod_small in Hr, Hl1 by lia.
    destruct (IH _ _ Hl1) as (b' & P' & Hb' & Hlive' & Hr' & Hl' & Hdom);
      [simpl; lia..|].
    simpl in Hb', Hlive', Hr', Hl', Hdom. simplify_eq.
    eexists _, P'. split_and!; [done|done| | |].
    + cbn [alloc_n]. rewrite Hr. simpl. rewrite Hr'. simpl. by rewrite slots_S.
    + replace (m_currentIdx c.2 + Z.of_nat (S k))
        with (m_currentIdx c.2 + 1 + Z.of_nat k) by lia. done.
    + rewrite Hdom, dom_insert_L.
      destruct (linked_inv _ _ _ _ _ _ Hl) as (_ & Hc & _).
      assert (c.1 ∈ dom (pools h)) by (apply elem_of_dom; eauto). set_solver.
Qed.

(** ** The member functions keep a pool a pool *)

Lemma release_wf t h :
  wf t h → ∃ t' h', release t h = Ok (t', h') ∧ wf t' h'.
Proof.
  intros [Hc Hf Hfr|l1 c l2 fl Hl].
  - exists t, h. split; [unfold release; by rewrite Hc | by apply wf_empty].
  - destruct (release_linked _ _ _ _ _ _ Hl) as (x & tl & P' & _ & Hr & Hl' & _).
    eexists _, _. split; [exact Hr | by eapply wf_linked].
Qed.

Lemma clear_wf_wf t h :
  wf t h → ∃ t' h', clear t h = Ok (t', h') ∧ wf t' h'.
Proof.
  intros Hwf. destruct (clear_wf _ _ Hwf) as (t' & h' & Hr & ? & ? & ? & _).
  exists t', h'. split; [done | by apply wf_empty].
Qed.

Lemma reserve_wf_wf size t h :
  wf t h → 0 ≤ size < 2 ^ 64 →
  ∃ t' h', reserve size t h = Ok (t', h') ∧ wf t' h'.
Proof.
  intros Hwf Hsz. destruct (reserve_wf size t h Hwf Hsz) as (t1 & h1 & _ & Hr & Hl).
  eexists _, _. split; [exact Hr | by eapply wf_linked].
Qed.

(** [resize] and [reset] rely on [m_first]: they keep a pool a pool when it
    has an active chunk. *)
Lemma resize_wf g t h l1 c l2 fl :
  linked t h l1 c l2 fl → 0 ≤ g < 2 ^ 64 →
  ∃ t' h', resize g t h = Ok (t', h') ∧ wf t' h' ∧ chain_sizes_monotone t' h'.
Proof.
  intros Hl Hg. destruct (Z.lt_ge_cases g (m_poolsize c.2)) as [Hlt|Hge].
  - exists t, h. split; [by eapply resize_small|].
    split; [by eapply wf_linked | by eapply linked_monotone].
  - destruct fl as [|f fl].
    + destruct (resize_fresh g _ _ _ _ _ Hl) as [Hr Hl']; [lia|].
      eexists _, _. split; [exact Hr|].
      split; [by eapply wf_linked | by eapply linked_monotone].
    + destruct (resize_reuse g _ _ _ _ _ _ _ Hl Hge) as [Hr Hl'].
      eexists _, _. split; [exact Hr|].
      split; [by eapply wf_linked | by eapply linked_monotone].
Qed.

Lemma reset_wf t h l1 c l2 fl :
  linked t h l1 c l2 fl → wf (reset t) h.
Proof.
  intros Hl. assert (∃ x tl, l1 ++ c :: l2 = x :: tl) as (x & tl & E).
  { destruct l1; simpl; eauto. }
  eapply wf_linked. by eapply reset_linked.
Qed.

(** On a pool that never had a chunk, [resize] creates the first one. *)
Lemma resize_empty g t h :
  m_current t = None → m_first t = None → m_freeList t = None →
  mem_fresh h → 0 ≤ g < 2 ^ 64 →
  let t' := mkAlloc (Some (brk h)) (Some (brk h)) None (wrap (m_capacity t + g)) in
  let h' := (new_Pool g None h).2 in
  resize g t h = Ok (t', h') ∧
  linked t' h' [] (brk h, mkPool g (Some (S (brk h))) 0 None) [] [].
Proof.
  intros Hc Hf Hfl Hfr Hg t' h'. destruct (sized_linked g h Hfr Hg) as [_ Hl].
  split.
  - unfold resize, load. rewrite Hc, Hf. simpl. rewrite lookup_insert_eq. simpl.
    by rewrite Hfl.
  - apply linked_iff in Hl. apply linked_iff. exact Hl.
Qed.

(** Every reachable state is a pool. *)
Lemma reachable_wf t h : reachable t h → wf t h.
Proof.
  induction 1 as [h Hfr|n h Hfr Hn|t h p t' h' _ IH Hr|t h t' h' _ IH Hr
    |t h t' h' _ IH Hr|size t h t' h' _ IH Hsz Hr|g t h t' h' _ IH Hg Hor Hr
    |t h _ IH Hor].
  - by apply default_wf.
  - destruct (sized_linked n h Hfr Hn) as [-> Hl]. by eapply wf_linked.
  - destruct (alloc_wf _ _ IH) as (p2 & t2 & h2 & Hr2 & _ & Hwf).
    rewrite Hr in Hr2. by injection Hr2 as <- <- <-.
  - destruct (release_wf _ _ IH) as (t2 & h2 & Hr2 & Hwf).
    rewrite Hr in Hr2. by injection Hr2 as <- <-.
  - destruct (clear_wf_wf _ _ IH) as (t2 & h2 & Hr2 & Hwf).
    rewrite Hr in Hr2. by injection Hr2 as <- <-.
  - destruct (reserve_wf_wf _ _ _ IH Hsz) as (t2 & h2 & Hr2 & Hwf).
    rewrite Hr in Hr2. by injection Hr2 as <- <-.
  - destruct IH as [Hc Hfl Hfr|l1 c l2 fl Hl].
    + destruct Hor as [?|Hf]; [done|].
      destruct (resize_empty g t h Hc Hf Hfl Hfr Hg) as [Hr2 Hl].
      rewrite Hr in Hr2. injection Hr2 as -> ->. by eapply wf_linked.
    + destruct (resize_wf g _ _ _ _ _ _ Hl Hg) as (t2 & h2 & Hr2 & Hwf & _).
      rewrite Hr in Hr2. by injection Hr2 as <- <-.
  - destruct IH as [Hc Hfl Hfr|l1 c l2 fl Hl].
    + destruct Hor as [?|Hf]; [done|]. by apply wf_empty.
    + by eapply reset_wf.
Qed.

(** ** The shape of a pool can be checked *)

Global Instance Pool_eq_dec : EqDecision Pool.
Proof. solve_decision. Defined.

Global Instance is_seg_dec P p l q : Decision (is_seg P p l q).
Proof. revert p. induction l as [|x l IH]; intros p; simpl; apply _. Defined.

Global Instance is_chain_dec P p l : Decision (is_chain P p l).
Proof. unfold is_chain. apply _. Defined.

Global Instance live_dec A s : Decision (live A s).
Proof. unfold live. destruct s.2; apply _. Defined.

Lemma live_iff A s :
  live A s ↔ ∃ b, s.2 = Some b ∧ A !! b = Some s.1.2 ∧ 0 ≤ s.1.2 < 2 ^ 64.
Proof.
  unfold live. destruct s.2 as [b|]; split.
  - intros ?. by exists b.
  - by intros (b' & [= <-] & ?).
  - done.
  - by intros (b' & ? & _).
Qed.

Lemma chunks_ok_iff A sl :
  chunks_ok A sl ↔
  NoDup (sl.*1.*1) ∧ NoDup (sl.*2) ∧ Forall (live A) sl ∧
  StronglySorted Z.le (sl.*1.*2).
Proof.
  split.
  - intros [H1 H2 H3 H4]. split_and!; [done..| |done].
    eapply Forall_impl; [exact H3|]. intros s. by rewrite live_iff.
  - intros (H1 & H2 & H3 & H4). split; [done..| |done].
    eapply Forall_impl; [exact H3|]. intros s. by rewrite live_iff.
Qed.

Global Instance chunks_ok_dec A sl : Decision (chunks_ok A sl).
Proof.
  refine (cast_if (decide (NoDup (sl.*1.*1) ∧ NoDup (sl.*2) ∧ Forall (live A) sl ∧
                           StronglySorted Z.le (sl.*1.*2))));
    by rewrite chunks_ok_iff.
Defined.

Lemma mem_fresh_iff h :
  mem_fresh h ↔
  map_Forall (λ a _, (a < brk h)%nat) (pools h) ∧
  map_Forall (λ b _, (b < brk h)%nat) (arrays h).
Proof.
  unfold mem_fresh, map_Forall. split; intros [H1 H2]; split.
  - intros a x Hx. apply H1. by rewrite Hx.
  - intros a x Hx. apply H2. by rewrite Hx.
  - intros a [x Hx]. by eapply H1.
  - intros a [x Hx]. by eapply H2.
Qed.

Global Instance mem_fresh_dec h : Decision (mem_fresh h).
Proof.
  refine (cast_if (decide (map_Forall (λ a _, (a < brk h)%nat) (pools h) ∧
                           map_Forall (λ b _, (b < brk h)%nat) (arrays h))));
    by rewrite mem_fresh_iff.
Defined.

Global Instance linked_dec t h l1 c l2 fl : Decision (linked t h l1 c l2 fl).
Proof.
  refine (cast_if (decide (
    is_chain (pools h) (m_first t) (l1 ++ c :: l2) ∧
    m_current t = Some c.1 ∧
    is_chain (pools h) (m_freeList t) fl ∧
    fl `suffix_of` l2 ∧
    chunks_ok (arrays h) (static <$> (l1 ++ c :: l2)) ∧
    mem_fresh h)));
    by rewrite linked_iff.
Defined.

Global Instance cursors_ok_dec l fl : Decision (cursors_ok l fl).
Proof. unfold cursors_ok. apply _. Defined.

Example two_chunks_reached :
  (let '(t, h) := TPoolAllocator_sized 4 empty_mem in
   let* (ps, t1, h1) := alloc_n 5 t h in Ok (t1, h1)) = Ok two_chunks.
Proof. vm_compute. reflexivity. Qed.

Example head_full_reached :
  (let '(t, h) := two_chunks in
   let* (t1, h1) := release t h in
   let* (ps, t2, h2) := alloc_n 4 t1 h1 in Ok (t2, h2)) = Ok head_full.
Proof. vm_compute. reflexivity. Qed.

Example two_chunks_linked :
  linked two_chunks.1 two_chunks.2
    [(0%nat, mkPool 4 (Some 1%nat) 4 (Some 2%nat))]
    (2%nat, mkPool 4 (Some 3%nat) 1 None) [] [].
Proof. apply (bool_decide_unpack _). vm_compute. exact I. Qed.

Example head_full_linked :
  linked head_full.1 head_full.2 []
    (0%nat, mkPool 4 (Some 1%nat) 4 (Some 2%nat))
    [(2%nat, mkPool 4 (Some 3%nat) 0 None)]
    [(2%nat, mkPool 4 (Some 3%nat) 0 None)].
Proof. apply (bool_decide_unpack _). vm_compute. exact I. Qed.

Example head_full_sized : wf_sized head_full.1 head_full.2.
Proof.
  apply (wfs_linked _ _ []
           (0%nat, mkPool 4 (Some 1%nat) 4 (Some 2%nat))
           [(2%nat, mkPool 4 (Some 3%nat) 0 None)]
           [(2%nat, mkPool 4 (Some 3%nat) 0 None)]);
    apply (bool_decide_unpack _); vm_compute; exact I.
Qed.

(** ** Lemmas for the further properties *)

(** The loop of [release] on a chain whose cursors are 0 already changes
    nothing. *)
Lemma release_loop_zeroed fuel h p l :
  is_chain (pools h) p l → Forall (λ x, m_currentIdx x.2 = 0) l →
  (length l < fuel)%nat →
  release_loop fuel h p = Ok h.
Proof.
  unfold is_chain. revert fuel p. induction l as [|[a pl] l IH]; intros fuel p.
  - simpl. intros -> _ _. by destruct fuel.
  - simpl. intros (-> & Ha & Hs) [H0 Hl]%Forall_cons Hf.
    destruct fuel as [|fuel]; [lia|]. simpl in H0.
    assert (set_currentIdx 0 pl = pl) as Hpl by (destruct pl; simpl in *; by subst).
    cbn [release_loop]. unfold store. rewrite Ha, Hpl, insert_id by done.
    replace (mkMem (pools h) (arrays h) (brk h)) with h by (by destruct h).
    cbn [rbind]. unfold load. rewrite Ha. cbn [rbind].
    apply IH; [done..|lia].
Qed.

Lemma wrap_small z : 0 ≤ z < 2 ^ 64 → wrap z = z.
Proof. intros Hz. unfold wrap. by apply Z.mod_small. Qed.








Lemma alloc_n_length k t h ps t' h' :
  alloc_n k t h = Ok (ps, t', h') → length ps = k.
Proof.
  revert t h ps. induction k as [|k IH]; intros t h ps; simpl.
  - intros ?. by simplify_eq.
  - destruct (alloc t h) as [[[p t1] h1]|]; simpl; [|done].
    destruct (alloc_n k t1 h1) as [[[ps1 t2] h2]|] eqn:E; simpl; [|done].
    intros ?. simplify_eq. simpl. f_equal. by eapply IH.
Qed.

Lemma total_size_nonneg l :
  Forall (λ x, 0 < m_poolsize x.2) l → 0 ≤ total_size l.
Proof.
  induction 1 as [|x l Hx _ IH]; simpl; lia.
Qed.

Lemma total_size_zero l : total_size (zero <$> l) = total_size l.
Proof.
  induction l as [|x l IH]; [done|].
  rewrite fmap_cons. cbn [total_size]. by rewrite IH.
Qed.

Lemma total_size_app l1 l2 : total_size (l1 ++ l2) = total_size l1 + total_size l2.
Proof. induction l1 as [|x l1 IH]; simpl; [done|]. rewrite IH. lia. Qed.

(** Filling a pool whose free list is everything behind the active chunk:
    the slots of the active chunk from its cursor on are handed out, then
    all slots of the chunks of the free list, and nothing is created. *)
Lemma refill l2 : ∀ l1 c t h,
  linked t h l1 c l2 l2 → cursors_ok (l1 ++ c :: l2) l2 →
  ∃ ps t' h' l1' c',
    alloc_n (Z.to_nat (m_poolsize c.2 - m_currentIdx c.2 + total_size l2)) t h
      = Ok (ps, t', h') ∧
    linked t' h' l1' c' [] [] ∧ m_currentIdx c'.2 = m_poolsize c'.2 ∧
    arrays h' = arrays h ∧ brk h' = brk h ∧ dom (pools h') = dom (pools h) ∧
    m_capacity t' = m_capacity t ∧ m_first t' = m_first t.
Proof.
  induction l2 as [|f l2 IH]; intros l1 c t h Hl [Hcur Hfree].
  - pose proof Hcur as Hcur'.
    rewrite Forall_app, Forall_cons in Hcur'. destruct Hcur' as (_ & Hcc & _).
    simpl. rewrite Z.add_0_r.
    destruct (alloc_n_room (Z.to_nat (m_poolsize c.2 - m_currentIdx c.2)) _ _ _ _ _ _ Hl)
      as (b & P' & _ & _ & Hr & Hl' & Hdom); [lia..|].
    rewrite Z2Nat.id in Hl' by lia.
    eexists _, _, _, _, _. split; [exact Hr|]. split; [exact Hl'|].
    split_and!; try done. simpl. lia.
  - pose proof Hcur as Hcur'.
    rewrite Forall_app, !Forall_cons in Hcur'.
    destruct Hcur' as (Hcur1 & Hcc & Hfc & Hcur2).
    apply Forall_cons in Hfree as [Hf0 Hfree].
    pose proof (total_size_nonneg l2) as Hnn.
    rewrite Forall_forall in Hnn.
    assert (0 ≤ total_size l2) as Hrest.
    { apply total_size_nonneg. eapply Forall_impl; [exact Hcur2|]. by intros ? [? _]. }
    clear Hnn. cbn [total_size].
    replace (Z.to_nat (m_poolsize c.2 - m_currentIdx c.2 + (m_poolsize f.2 + total_size l2)))
      with (Z.to_nat (m_poolsize c.2 - m_currentIdx c.2) +
            (1 + Z.to_nat (m_poolsize f.2 - 1 + total_size l2)))%nat by lia.
    destruct (alloc_n_room (Z.to_nat (m_poolsize c.2 - m_currentIdx c.2)) _ _ _ _ _ _ Hl)
      as (b & P1 & _ & _ & Hr1 & Hl1 & Hdom1); [lia..|].
    rewrite Z2Nat.id in Hl1 by lia.
    destruct (alloc_full_reuse _ _ _ _ _ _ _ Hl1) as (b2 & _ & _ & Hr2 & Hl2);
      [simpl; lia|].
    assert (wrap (m_currentIdx f.2 + 1) = 1) as Hw by (by rewrite Hf0).
    rewrite Hw in *.
    destruct (IH _ _ _ _ Hl2) as (ps & t' & h' & l1' & c' & Hr3 & Hl3 & Hfull & HA & HB & HD & HC & HF).
    { split; [|done]. rewrite <- app_assoc. simpl. rewrite Forall_app, !Forall_cons.
      split_and!; try done; simpl; lia. }
    assert (alloc_n (Z.to_nat (m_poolsize f.2 - 1 + total_size l2)) _ _
            = Ok (ps, t', h')) as Hr3' by exact Hr3.
    eexists _, _, _, _, _. split.
    { rewrite alloc_n_app, Hr1. cbn [rbind]. cbn [Nat.add alloc_n]. rewrite Hr2.
      cbn [rbind]. rewrite Hr3'. cbn [rbind]. done. }
    split; [exact Hl3|]. split; [done|]. simpl in *.
    split_and!; try done.
    rewrite HD, !dom_insert_L, Hdom1.
    destruct (linked_inv _ _ _ _ _ _ Hl) as (_ & Hc & _).
    pose proof (lk_free _ _ _ _ _ _ Hl) as (_ & Hf & _).
    assert (c.1 ∈ dom (pools h)) by (apply elem_of_dom; eauto).
    assert (f.1 ∈ dom (pools h)) by (apply elem_of_dom; eauto).
    set_solver.
Qed.

(** A pool that is only constructed with a size, allocated from and
    released has all its chunks on the chain, behind the active chunk
    exactly the free list. *)
Lemma cycled_inv h0 n t h :
  mem_fresh h0 → 0 ≤ n < 2 ^ 64 → cycled h0 n t h →
  ∃ l1 c l2,
    linked t h l1 c l2 l2 ∧ cyc_frame h0 n t h (static <$> (l1 ++ c :: l2)).
Proof.
  intros Hfr0 Hn. induction 1 as [|t h p t' h' _ IH Hr|t h t' h' _ IH Hr].
  - destruct (sized_linked n h0 Hfr0 Hn) as [-> Hl].
    eexists [], _, []. split; [exact Hl|]. split; simpl.
    + by apply Forall_singleton.
    + rewrite Z.mul_1_r. by rewrite wrap_small.
    + lia.
    + apply Forall_singleton. simpl. split; [lia|]. intros b [= <-]. lia.
    + intros a Ha. apply lookup_insert_ne. intros <-. apply Ha. left.
    + intros b Hb. apply lookup_insert_ne. intros <-. apply Hb. left.
  - destruct IH as (l1 & c & l2 & Hl & [Hsz Hcap Hbrk Hnew HP HA]).
    destruct (linked_inv _ _ _ _ _ _ Hl) as (_ & Hc & _).
    assert (c.1 ∈ (static <$> (l1 ++ c :: l2)).*1.*1) as Hcin.
    { rewrite static_addrs, fmap_app, fmap_cons. apply elem_of_app. right. left. }
    destruct (decide (m_currentIdx c.2 = m_poolsize c.2)) as [Hfull|Hroom].
    + destruct l2 as [|f l2].
      * (* a new chunk *)
        destruct (alloc_full_fresh _ _ _ _ _ Hl Hfull) as [Hr' Hl'].
        rewrite Hr in Hr'. injection Hr' as -> -> ->.
        eexists _, _, []. split; [exact Hl'|].
        assert (m_poolsize c.2 = n) as Hcn.
        { rewrite Forall_forall in Hsz. apply (Hsz (static c)).
          apply list_elem_of_fmap. exists c. split; [done|].
          apply elem_of_app. right. left. }
        rewrite <- app_assoc. simpl. rewrite static_app in *. simpl.
        change (static (c.1, set_next (Some (brk h)) c.2)) with (static c).
        rewrite (cons_middle (static c)), app_assoc in *. simpl in *.
        rewrite ?app_nil_r in *.
        set (sl := (static <$> l1) ++ [static c]) in *.
        split; simpl.
        -- apply Forall_app. split; [done|]. by apply Forall_singleton.
        -- rewrite Hcap, Hcn, length_app. simpl. unfold wrap.
           rewrite Zplus_mod_idemp_l. f_equal. lia.
        -- lia.
        -- apply Forall_app. split; [done|]. apply Forall_singleton. simpl.
           split; [lia|]. intros b [= <-]. lia.
        -- intros a Ha. rewrite !fmap_app in Ha. simpl in Ha.
           rewrite lookup_insert_ne; [|intros <-; apply Ha; apply elem_of_app; right; left].
           rewrite lookup_insert_ne; [|intros <-; apply Ha; apply elem_of_app; by left].
           rewrite lookup_insert_ne; [|intros <-; apply Ha; apply elem_of_app; right; left].
           apply HP. intros ?. apply Ha. apply elem_of_app. by left.
        -- intros b Hb. rewrite fmap_app in Hb. simpl in Hb.
           rewrite lookup_insert_ne; [|intros <-; apply Hb; apply elem_of_app; right; left].
           apply HA. intros ?. apply Hb. apply elem_of_app. by left.
      * (* the chunk behind the active one *)
        destruct (alloc_full_reuse _ _ _ _ _ _ _ Hl Hfull) as (b & _ & _ & Hr' & Hl').
        rewrite Hr in Hr'. injection Hr' as -> -> ->.
        eexists _, _, _. split; [exact Hl'|].
        assert (static <$> ((l1 ++ [(c.1, set_next (Some f.1) c.2)]) ++
                  (f.1, set_currentIdx (wrap (m_currentIdx f.2 + 1)) f.2) :: l2)
                = static <$> (l1 ++ c :: f :: l2)) as ->.
        { rewrite <- app_assoc. simpl. by rewrite !static_app, !fmap_cons. }
        pose proof (lk_free _ _ _ _ _ _ Hl) as (_ & Hf & _).
        split; simpl; try done.
        intros a Ha. rewrite !lookup_insert_ne; [by apply HP|..].
        -- intros <-. done.
        -- intros <-. apply Ha. rewrite static_addrs, fmap_app, !fmap_cons.
           apply elem_of_app. right. right. left.
    + destruct (alloc_room _ _ _ _ _ _ Hl Hroom) as (b & _ & _ & Hr' & Hl').
      rewrite Hr in Hr'. injection Hr' as -> -> ->.
      eexists _, _, _. split; [exact Hl'|].
      assert (static <$> (l1 ++ (c.1, set_currentIdx (wrap (m_currentIdx c.2 + 1)) c.2) :: l2)
              = static <$> (l1 ++ c :: l2)) as ->.
      { by rewrite !static_app. }
      split; simpl; try done.
      intros a Ha. rewrite lookup_insert_ne; [by apply HP|]. intros <-. done.
  - destruct IH as (l1 & c & l2 & Hl & [Hsz Hcap Hbrk Hnew HP HA]).
    destruct (release_linked _ _ _ _ _ _ Hl) as (x & tl & P' & E & Hr' & Hl' & _ & Hout).
    rewrite Hr in Hr'. injection Hr' as -> ->.
    eexists [], _, _. split; [exact Hl'|].
    assert (static <$> ([] ++ zero x :: (zero <$> tl)) = static <$> (l1 ++ c :: l2)) as ->.
    { simpl. change (static (zero x) :: _) with (static <$> (zero <$> (x :: tl))).
      by rewrite static_zero, E. }
    split; simpl; try done.
    intros a Ha. rewrite Hout; [by apply HP|]. by rewrite static_addrs in Ha.
Qed.

(** ** The cursors of a reachable pool *)

Lemma wrap_range z : 0 ≤ wrap z < 2 ^ 64.
Proof. unfold wrap. apply Z.mod_pos_bound. done. Qed.

Lemma wf_cursors_wf t h : wf_cursors t h → wf t h.
Proof.
  intros [? ? ?|l1 c l2 fl Hl _]; [by apply wf_empty | by eapply wf_linked].
Qed.

Lemma linked_sizes t h l1 c l2 fl :
  linked t h l1 c l2 fl →
  Forall (λ x, 0 ≤ m_poolsize x.2 < 2 ^ 64) (l1 ++ c :: l2).
Proof.
  intros Hl. apply Forall_forall. intros x Hx.
  by destruct (chunks_ok_live _ _ x (lk_chunks _ _ _ _ _ _ Hl) Hx) as (b & _ & _ & ?).
Qed.

(** A chain whose cursors were all set to 0, with any part of it as the
    free list. *)
Lemma cursors_in_zero (l fl : list (nat * Pool)) :
  Forall (λ x, 0 ≤ m_poolsize x.2 < 2 ^ 64) l →
  cursors_in (zero <$> l) (zero <$> fl).
Proof.
  intros Hsz. split.
  - apply Forall_fmap. eapply Forall_impl; [exact Hsz|].
    intros x Hx. unfold compose. simpl in *. lia.
  - apply Forall_fmap, Forall_true. done.
Qed.

(** [alloc] on a pool with such cursors: the pointer is the address of the
    element under the cursor of the chunk that is active after the call,
    and this cursor advances; unless that chunk has no elements, the
    element is one of its array.  The cursors stay as described. *)
Lemma alloc_cursors t h :
  wf_cursors t h →
  ∃ p t' h',
    alloc t h = Ok (p, t', h') ∧
    (p = None ↔ m_current t = None) ∧
    (∀ b i, p = Some (b, i) →
       ∃ a pl, m_current t' = Some a ∧ pools h' !! a = Some pl ∧
               m_pool pl = Some b ∧ arrays h' !! b = Some (m_poolsize pl) ∧
               m_currentIdx pl = wrap (i + 1) ∧
               (m_poolsize pl ≠ 0 → 0 ≤ i < m_poolsize pl)) ∧
    wf_cursors t' h'.
Proof.
  intros [Hc Hf Hfr|l1 c l2 fl Hl [Hcur Hfree]].
  { exists None, t, h. unfold alloc. rewrite Hc.
    split; [done|]. split; [done|]. split; [done|]. by apply wfc_empty. }
  destruct (linked_current _ _ _ _ _ _ Hl) as (bc & Hcurrent & _ & _ & _ & Hsz).
  rewrite Forall_app, Forall_cons in Hcur. destruct Hcur as (Hcur1 & Hcc & Hcur2).
  destruct (decide (m_currentIdx c.2 = m_poolsize c.2)) as [Hfull|Hroom].
  - destruct fl as [|f fl].
    + (* a new chunk *)
      destruct (alloc_full_fresh _ _ _ _ _ Hl Hfull) as [Hr Hl'].
      destruct (linked_current _ _ _ _ _ _ Hl') as (b' & Hcur' & Hlook & Hb' & Hlive' & _).
      cbn [fst snd m_pool m_poolsize] in Hb', Hlive'. injection Hb' as <-.
      eexists _, _, _. split; [exact Hr|].
      split; [by rewrite Hcurrent|]. split.
      * intros b i [= <- <-].
        eexists _, _. split; [exact Hcur'|]. split; [exact Hlook|].
        split; [done|]. split; [exact Hlive'|]. split; [done|]. simpl. lia.
      * eapply wfc_linked; [exact Hl'|]. split; [|done].
        rewrite <- app_assoc. simpl. rewrite Forall_app, !Forall_cons.
        split; [done|]. split; [exact Hcc|]. split; [|done].
        simpl. assert (wrap (0 + 1) = 1) as -> by done. lia.
    + (* the first chunk of the free list *)
      destruct (alloc_full_reuse _ _ _ _ _ _ _ Hl Hfull) as (b & Hb & Hlive & Hr & Hl').
      apply Forall_cons in Hfree as [Hf0 Hfree].
      destruct (lk_suffix _ _ _ _ _ _ Hl) as [pre ->].
      rewrite Forall_app, Forall_cons in Hcur2. destruct Hcur2 as (_ & Hfc & Hcur2).
      destruct (linked_current _ _ _ _ _ _ Hl') as (b' & Hcur' & Hlook & Hb' & Hlive' & Hsz').
      cbn [fst snd m_pool m_poolsize set_currentIdx] in Hb', Hlive', Hsz'.
      rewrite Hb in Hb'. injection Hb' as <-.
      eexists _, _, _. split; [exact Hr|].
      split; [by rewrite Hcurrent|]. split.
      * intros b' i [= <- <-].
        eexists _, _. split; [exact Hcur'|]. split; [exact Hlook|].
        split; [done|]. split; [exact Hlive'|]. split; [done|]. simpl. lia.
      * eapply wfc_linked; [exact Hl'|]. split; [|done].
        rewrite <- app_assoc. simpl. rewrite Forall_app, !Forall_cons.
        split; [done|]. split; [exact Hcc|]. split; [|done].
        simpl. rewrite Hf0. assert (wrap (0 + 1) = 1) as -> by done. lia.
  - (* room in the active chunk *)
    destruct (alloc_room _ _ _ _ _ _ Hl Hroom) as (b & Hb & Hlive & Hr & Hl').
    destruct (linked_current _ _ _ _ _ _ Hl') as (b' & Hcur' & Hlook & Hb' & Hlive' & _).
    cbn [fst snd m_pool m_poolsize set_currentIdx] in Hb', Hlive'.
    rewrite Hb in Hb'. injection Hb' as <-.
    eexists _, _, _. split; [exact Hr|].
    split; [by rewrite Hcurrent|]. split.
    + intros b' i [= <- <-].
      eexists _, _. split; [exact Hcur'|]. split; [exact Hlook|].
      split; [done|]. split; [exact Hlive'|]. split; [done|]. simpl. lia.
    + eapply wfc_linked; [exact Hl'|]. split; [|done].
      rewrite Forall_app, !Forall_cons.
      split; [done|]. split; [|done]. simpl.
      split; [apply wrap_range|].
      destruct (decide (m_poolsize c.2 = 0)) as [?|Hne]; [by left|right].
      rewrite wrap_small; lia.
Qed.

(** Every reachable state is a pool with such cursors. *)
Lemma reachable_cursors t h : reachable t h → wf_cursors t h.
Proof.
  induction 1 as [h Hfr|n h Hfr Hn|t h p t' h' _ IH Hr|t h t' h' _ IH Hr
    |t h t' h' _ IH Hr|size t h t' h' _ IH Hsz Hr|g t h t' h' _ IH Hg Hor Hr
    |t h _ IH Hor].
  - by apply wfc_empty.
  - destruct (sized_linked n h Hfr Hn) as [-> Hl].
    eapply wfc_linked; [exact Hl|]. split; [|done].
    apply Forall_singleton. simpl. lia.
  - destruct (alloc_cursors _ _ IH) as (p2 & t2 & h2 & Hr2 & _ & _ & Hwf).
    rewrite Hr in Hr2. by injection Hr2 as <- <- <-.
  - destruct IH as [Hc Hfl Hfr|l1 c l2 fl Hl Hcur].
    + unfold release in Hr. rewrite Hc in Hr. injection Hr as <- <-.
      by apply wfc_empty.
    + destruct (release_linked _ _ _ _ _ _ Hl) as (x & tl & P' & E & Hr2 & Hl' & _).
      rewrite Hr in Hr2. injection Hr2 as -> ->.
      eapply wfc_linked; [exact Hl'|].
      pose proof (linked_sizes _ _ _ _ _ _ Hl) as Hsz. rewrite E in Hsz.
      change ([] ++ zero x :: (zero <$> tl)) with (zero <$> (x :: tl)).
      destruct (cursors_in_zero (x :: tl) tl Hsz) as [H1 H2]. by split.
  - destruct (clear_wf _ _ (wf_cursors_wf _ _ IH)) as (t2 & h2 & Hr2 & ? & ? & ? & _).
    rewrite Hr in Hr2. injection Hr2 as <- <-. by apply wfc_empty.
  - destruct (reserve_wf size t h (wf_cursors_wf _ _ IH) Hsz) as (t1 & h1 & _ & Hr2 & Hl).
    rewrite Hr in Hr2. injection Hr2 as -> ->.
    eapply wfc_linked; [exact Hl|]. split; [|done].
    apply Forall_singleton. simpl. lia.
  - destruct IH as [Hc Hfl Hfr|l1 c l2 fl Hl [Hcur Hfree]].
    + destruct Hor as [?|Hf]; [done|].
      destruct (resize_empty g t h Hc Hf Hfl Hfr Hg) as [Hr2 Hl].
      rewrite Hr in Hr2. injection Hr2 as -> ->.
      eapply wfc_linked; [exact Hl|]. split; [|done].
      apply Forall_singleton. simpl. lia.
    + rewrite Forall_app, Forall_cons in Hcur. destruct Hcur as (Hcur1 & Hcc & Hcur2).
      destruct (Z.lt_ge_cases g (m_poolsize c.2)) as [Hlt|Hge].
      * rewrite (resize_small g _ _ _ _ _ _ Hl Hlt) in Hr. injection Hr as <- <-.
        eapply wfc_linked; [exact Hl|]. split; [|done].
        rewrite Forall_app, Forall_cons. done.
      * destruct fl as [|f fl].
        -- destruct (resize_fresh g _ _ _ _ _ Hl) as [Hr2 Hl']; [lia|].
           rewrite Hr in Hr2. injection Hr2 as -> ->.
           eapply wfc_linked; [exact Hl'|]. split; [|done].
           rewrite <- app_assoc. simpl. rewrite Forall_app, !Forall_cons.
           split; [done|]. split; [exact Hcc|]. split; [|done]. simpl. lia.
        -- destruct (resize_reuse g _ _ _ _ _ _ _ Hl Hge) as [Hr2 Hl'].
           rewrite Hr in Hr2. injection Hr2 as -> ->.
           apply Forall_cons in Hfree as [Hf0 Hfree].
           destruct (lk_suffix _ _ _ _ _ _ Hl) as [pre ->].
           rewrite Forall_app, Forall_cons in Hcur2. destruct Hcur2 as (_ & Hfc & Hcur2).
           eapply wfc_linked; [exact Hl'|]. split; [|done].
           rewrite <- app_assoc. simpl. rewrite Forall_app, !Forall_cons.
           split; [done|]. split; [exact Hcc|]. by split.
  - destruct IH as [Hc Hfl Hfr|l1 c l2 fl Hl [Hcur Hfree]].
    + destruct Hor as [?|Hf]; [done|]. by apply wfc_empty.
    + assert (∃ x tl, l1 ++ c :: l2 = x :: tl) as (x & tl & E).
      { destruct l1; simpl; eauto. }
      eapply wfc_linked; [by eapply reset_linked|].
      split; [|done]. simpl. by rewrite <- E.
Qed.

(** A run of [alloc] on a reachable pool ends in a reachable pool. *)
Lemma reachable_alloc_n k : ∀ t h ps t' h',
  reachable t h → alloc_n k t h = Ok (ps, t', h') → reachable t' h'.
Proof.
  induction k as [|k IH]; intros t h ps t' h' Hreach Hr; simpl in Hr.
  - by injection Hr as _ <- <-.
  - destruct (alloc t h) as [[[p t1] h1]|] eqn:Ha; simpl in Hr; [|done].
    destruct (alloc_n k t1 h1) as [[[ps1 t2] h2]|] eqn:Hn; simpl in Hr; [|done].
    injection Hr as _ <- <-. eapply IH; [|exact Hn]. by eapply reach_alloc.
Qed.

(** [two_chunks] is the state after [TPoolAllocator<T> p(4)] and five
    calls of [alloc]. *)
Lemma reach_two_chunks : reachable two_chunks.1 two_chunks.2.
Proof.
  apply (reachable_alloc_n 5 (TPoolAllocator_sized 4 empty_mem).1
           (TPoolAllocator_sized 4 empty_mem).2
           [Some (1%nat, 0); Some (1%nat, 1); Some (1%nat, 2); Some (1%nat, 3);
            Some (3%nat, 0)]).
  - apply reach_sized; [apply empty_mem_fresh|done].
  - vm_compute. reflexivity.
Qed.

(** * The claims *)

(** C1 fails on the code: after [TPoolAllocator<T> p(4); p.clear();] there
    is no active chunk and no free list and [alloc] returns [nullptr], but
    [m_first] still holds the address of the deleted node and [capacity()]
    is still 4.  The stale [m_first] is then used by [reset] (after which
    [alloc] reads the deleted node) and by [resize] (which takes the pool
    for a non-empty one and writes through the null [m_current]). *)
Theorem C1_clear_keeps_first_and_capacity :
  ∃ t0 h0 t1 h1,
    TPoolAllocator_sized 4 empty_mem = (t0, h0) ∧
    clear t0 h0 = Ok (t1, h1) ∧
    m_current t1 = None ∧ m_freeList t1 = None ∧
    alloc t1 h1 = Ok (None, t1, h1) ∧
    m_first t1 = Some 0%nat ∧ pools h1 !! 0%nat = None ∧
    capacity t1 = 4 ∧
    alloc (reset t1) h1 = UB UseAfterFree ∧
    resize 4 t1 h1 = UB NullDeref.
Proof.
  eexists _, _, _, _. split; [reflexivity|]. split; [vm_compute; reflexivity|].
  split_and!; vm_compute; reflexivity.
Qed.

(** C2: [alloc] on a pool whose active chunk [c] is full.  If the free list
    is not empty, its first chunk [f] is taken off the free list (which is
    then the rest [fl'], without [f]), linked behind [c] and made the
    active chunk; the returned pointer is the element of [f]'s array under
    [f]'s cursor.  [f] is at least as large as [c], and no node and no
    array is created ([m_capacity] stays).  Only if the free list is empty,
    a new chunk with a new array is created, of the size of [c], linked
    behind [c] and made the active chunk; the returned pointer is its first
    element.  Either way the primary chain from [m_first] is then the
    chunks up to [c], the newly active chunk and the rest of the free list,
    and the sizes along it are non-decreasing. *)
Theorem C2_growth t h l1 c l2 fl :
  linked t h l1 c l2 fl → m_currentIdx c.2 = m_poolsize c.2 →
  ∃ p t' h',
    alloc t h = Ok (p, t', h') ∧
    match fl with
    | f :: fl' =>
        m_current t' = Some f.1 ∧ m_poolsize c.2 ≤ m_poolsize f.2 ∧
        arrays h' = arrays h ∧ dom (pools h') = dom (pools h) ∧
        brk h' = brk h ∧ capacity t' = capacity t ∧
        m_freeList t = Some f.1 ∧
        m_freeList t' = m_next f.2 ∧ m_freeList t' ≠ Some f.1 ∧
        is_chain (pools h') (m_freeList t') fl' ∧ f.1 ∉ fl'.*1 ∧
        is_chain (pools h') (m_first t')
          (l1 ++ (c.1, set_next (Some f.1) c.2)
              :: (f.1, set_currentIdx (wrap (m_currentIdx f.2 + 1)) f.2) :: fl') ∧
        ∃ b, m_pool f.2 = Some b ∧ arrays h !! b = Some (m_poolsize f.2) ∧
             p = Some (b, m_currentIdx f.2)
    | [] =>
        ∃ a b pl,
          m_current t' = Some a ∧
          pools h !! a = None ∧ pools h' !! a = Some pl ∧
          m_pool pl = Some b ∧
          arrays h !! b = None ∧ arrays h' !! b = Some (m_poolsize pl) ∧
          m_poolsize pl = m_poolsize c.2 ∧
          capacity t' = wrap (capacity t + m_poolsize pl) ∧
          m_freeList t = None ∧ m_freeList t' = None ∧
          is_chain (pools h') (m_first t')
            (l1 ++ [(c.1, set_next (Some a) c.2); (a, pl)]) ∧
          p = Some (b, 0)
    end ∧
    chain_sizes_monotone t' h'.
Proof.
  intros Hl Hfull.
  destruct (linked_inv _ _ _ _ _ _ Hl) as (_ & Hc & _).
  destruct fl as [|f fl].
  - destruct (alloc_full_fresh _ _ _ _ _ Hl Hfull) as [Hr Hl'].
    pose proof (lk_fresh _ _ _ _ _ _ Hl) as Hfr.
    pose proof (lk_free _ _ _ _ _ _ Hl) as Hfl.
    pose proof (lk_first _ _ _ _ _ _ Hl') as Hchain.
    rewrite <- app_assoc in Hchain.
    destruct (mem_fresh_None h (brk h) Hfr) as [Ea _]; [lia|].
    destruct (mem_fresh_None h (S (brk h)) Hfr) as [_ Eb]; [lia|].
    eexists _, _, _. split; [exact Hr|]. split; [|by eapply linked_monotone].
    exists (brk h), (S (brk h)),
      (mkPool (m_poolsize c.2) (Some (S (brk h))) (wrap (0 + 1)) None).
    split; [done|]. split; [done|]. split; [simpl; apply lookup_insert_eq|].
    split; [done|]. split; [done|]. split; [simpl; apply lookup_insert_eq|].
    split; [done|]. split; [done|]. split; [exact Hfl|]. split; [done|].
    split; [exact Hchain|]. done.
  - destruct (alloc_full_reuse _ _ _ _ _ _ _ Hl Hfull) as (b & Hb & Hlive & Hr & Hl').
    destruct (linked_free_notin _ _ _ _ _ _ f Hl) as [Hfc _]; [left|].
    pose proof (lk_free _ _ _ _ _ _ Hl) as (Hfl & Hf & _).
    pose proof (lk_first _ _ _ _ _ _ Hl') as Hchain.
    rewrite <- app_assoc in Hchain.
    pose proof (lk_free _ _ _ _ _ _ Hl') as Hfree'.
    assert (f.1 ∉ fl.*1) as Hnotin.
    { intros (x & E & Hx)%list_elem_of_fmap.
      destruct (linked_free_notin _ _ _ _ _ _ x Hl' Hx) as [Hne _].
      apply Hne. by rewrite <- E. }
    assert (m_next f.2 ≠ Some f.1) as Hpop.
    { intros E. destruct fl as [|y fl]; [by rewrite E in Hfree'|].
      destruct Hfree' as (Hy & _). cbn [m_freeList] in Hy. rewrite E in Hy.
      injection Hy as Hy. apply Hnotin. rewrite fmap_cons, Hy. left. }
    eexists _, _, _. split; [exact Hr|]. split; [|by eapply linked_monotone].
    split; [done|]. split.
    { eapply linked_later_size; [exact Hl|].
      destruct (lk_suffix _ _ _ _ _ _ Hl) as [pre ->].
      apply elem_of_app. right. left. }
    split; [done|]. split.
    { simpl. rewrite !dom_insert_L.
      assert (c.1 ∈ dom (pools h)) by (apply elem_of_dom; eauto).
      assert (f.1 ∈ dom (pools h)) by (apply elem_of_dom; eauto).
      set_solver. }
    split; [done|]. split; [done|]. split; [exact Hfl|]. split; [done|].
    split; [exact Hpop|]. split; [exact Hfree'|]. split; [exact Hnotin|].
    split; [exact Hchain|]. by exists b.
Qed.

Lemma C2_growth_witness :
  ∃ p t' h',
    alloc head_full.1 head_full.2 = Ok (p, t', h') ∧
    (m_current t' = Some 2%nat ∧ 4 ≤ 4 ∧
     arrays h' = arrays head_full.2 ∧ dom (pools h') = dom (pools head_full.2) ∧
     brk h' = brk head_full.2 ∧ capacity t' = capacity head_full.1 ∧
     m_freeList head_full.1 = Some 2%nat ∧
     m_freeList t' = None ∧ m_freeList t' ≠ Some 2%nat ∧
     is_chain (pools h') (m_freeList t') [] ∧ 2%nat ∉ @nil nat ∧
     is_chain (pools h') (m_first t')
       [(0%nat, mkPool 4 (Some 1%nat) 4 (Some 2%nat));
        (2%nat, mkPool 4 (Some 3%nat) 1 None)] ∧
     ∃ b, Some 3%nat = Some b ∧ arrays head_full.2 !! b = Some 4 ∧
          p = Some (b, 0)) ∧
    chain_sizes_monotone t' h'.
Proof.
  apply (C2_growth head_full.1 head_full.2 []
           (0%nat, mkPool 4 (Some 1%nat) 4 (Some 2%nat))
           [(2%nat, mkPool 4 (Some 3%nat) 0 None)]
           [(2%nat, mkPool 4 (Some 3%nat) 0 None)]).
  - apply (bool_decide_unpack _). vm_compute. exact I.
  - reflexivity.
Defined.

(** C3 as stated fails on a chunk without elements: after [reserve(0)] the
    pool has an active chunk without room, [alloc] links a second chunk
    of size 0 behind it and returns a pointer that is not null and is no
    element of any array (it is the end of an array of length 0). *)
Lemma C3_counterexample :
  ∃ t h p t' h',
    reserve 0 TPoolAllocator_default empty_mem = Ok (t, h) ∧
    reachable t h ∧ wf t h ∧ m_current t ≠ None ∧
    alloc t h = Ok (Some p, t', h') ∧
    ¬ is_slot h' p.
Proof.
  destruct (reserve_wf 0 TPoolAllocator_default empty_mem) as (t1 & h1 & Hc & Hr & Hl).
  { apply default_wf, empty_mem_fresh. }
  { done. }
  rewrite clear_empty in Hc by done. injection Hc as <- <-.
  eexists _, _, (4%nat, 0), _, _. split; [exact Hr|]. split.
  { eapply (reach_reserve 0); [apply reach_default, empty_mem_fresh|done|exact Hr]. }
  split; [by eapply wf_linked|]. split; [done|]. split.
  - vm_compute. reflexivity.
  - intros (n & Hn & Hi). vm_compute in Hn. injection Hn as <-. simpl in Hi. lia.
Qed.

(** C3, as the code has it.  In every state that a program reaches through
    the member functions, [resize] and [reset] not being called on a
    cleared pool, [alloc] returns, and it returns [nullptr] exactly when
    the pool has no active chunk.  A pointer that is not null is the
    address of the element under the cursor of the chunk that is active
    when the call returns, and that cursor has advanced by one (within
    [size_t]); unless this chunk has size 0, the element is an element of
    the chunk's array (a free slot). *)
Theorem C3_alloc_null_iff_no_active_chunk t h :
  reachable t h →
  ∃ p t' h',
    alloc t h = Ok (p, t', h') ∧
    (p = None ↔ m_current t = None) ∧
    reachable t' h' ∧ wf t' h' ∧
    ∀ b i, p = Some (b, i) →
      ∃ a pl, m_current t' = Some a ∧ pools h' !! a = Some pl ∧
              m_pool pl = Some b ∧ arrays h' !! b = Some (m_poolsize pl) ∧
              m_currentIdx pl = wrap (i + 1) ∧
              (m_poolsize pl ≠ 0 →
                 is_slot h' (b, i) ∧ 0 ≤ i < m_poolsize pl ∧
                 m_currentIdx pl = i + 1).
Proof.
  intros Hreach.
  destruct (alloc_cursors _ _ (reachable_cursors _ _ Hreach))
    as (p & t' & h' & Hr & Hnull & Hslot & Hwf').
  exists p, t', h'. split; [exact Hr|]. split; [exact Hnull|].
  split; [by eapply reach_alloc|]. split; [by apply wf_cursors_wf|].
  intros b i Hp. destruct (Hslot b i Hp) as (a & pl & Ha & Hpl & Hb & Hlive & Hidx & Hin).
  exists a, pl. split; [done|]. split; [done|]. split; [done|]. split; [done|].
  split; [done|]. intros Hne. specialize (Hin Hne).
  destruct Hwf' as [Hnone _ _|l1 c l2 fl Hl _]; [congruence|].
  destruct (linked_current _ _ _ _ _ _ Hl) as (_ & Hcur & Hlook & _ & _ & Hsz).
  rewrite Ha in Hcur. injection Hcur as ->. rewrite Hpl in Hlook. injection Hlook as ->.
  split; [|split; [done|]].
  - exists (m_poolsize c.2). by split.
  - rewrite Hidx. apply wrap_small. lia.
Qed.

(** The pool after [TPoolAllocator<T> p(0); p.resize(4);]: the head has no
    elements, the active chunk has four. *)
Lemma C3_alloc_null_iff_no_active_chunk_witness :
  ∃ p t' h',
    alloc (mkAlloc (Some 0%nat) (Some 2%nat) None 4)
      (mkMem (<[0%nat := mkPool 0 (Some 1%nat) 0 (Some 2%nat)]>
                (<[2%nat := mkPool 4 (Some 3%nat) 0 None]> ∅))
             (<[1%nat := 0]> (<[3%nat := 4]> ∅)) 4%nat)
      = Ok (p, t', h') ∧
    (p = None ↔ Some 2%nat = None) ∧
    reachable t' h' ∧ wf t' h' ∧
    ∀ b i, p = Some (b, i) →
      ∃ a pl, m_current t' = Some a ∧ pools h' !! a = Some pl ∧
              m_pool pl = Some b ∧ arrays h' !! b = Some (m_poolsize pl) ∧
              m_currentIdx pl = wrap (i + 1) ∧
              (m_poolsize pl ≠ 0 →
                 is_slot h' (b, i) ∧ 0 ≤ i < m_poolsize pl ∧
                 m_currentIdx pl = i + 1).
Proof.
  apply (C3_alloc_null_iff_no_active_chunk
           (mkAlloc (Some 0%nat) (Some 2%nat) None 4)
           (mkMem (<[0%nat := mkPool 0 (Some 1%nat) 0 (Some 2%nat)]>
                     (<[2%nat := mkPool 4 (Some 3%nat) 0 None]> ∅))
                  (<[1%nat := 0]> (<[3%nat := 4]> ∅)) 4%nat)).
  apply (reach_resize 4 (TPoolAllocator_sized 0 empty_mem).1
           (TPoolAllocator_sized 0 empty_mem).2).
  - apply reach_sized.
    + apply (bool_decide_unpack _). vm_compute. exact I.
    + split; [reflexivity|reflexivity].
  - split; [discriminate|reflexivity].
  - left. discriminate.
  - vm_compute. reflexivity.
Defined.

(** C4: for a pool constructed with initial size [n > 0], the first [n]
    calls of [alloc] return [n] distinct non-null pointers, the slots
    [0 .. n-1] of the first chunk's array; the next call grows the pool: it
    returns slot [0] of an array that did not exist before, in a new active
    chunk, and [capacity()] becomes [n + n] (8 for [n = 4]). *)
Theorem C4_first_allocations (n : Z) (h : Mem) :
  0 < n < 2 ^ 64 → mem_fresh h →
  ∃ t0 h0 b ps t1 h1 b' t2 h2,
    TPoolAllocator_sized n h = (t0, h0) ∧
    alloc_n (Z.to_nat n) t0 h0 = Ok (ps, t1, h1) ∧
    ps = slots b 0 (Z.to_nat n) ∧
    NoDup ps ∧ Forall (λ p, p ≠ None) ps ∧
    arrays h1 !! b = Some n ∧
    alloc t1 h1 = Ok (Some (b', 0), t2, h2) ∧
    arrays h1 !! b' = None ∧ arrays h2 !! b' = Some n ∧
    Some (b', 0) ∉ ps ∧
    m_current t2 ≠ m_current t1 ∧
    capacity t1 = n ∧
    capacity t2 = wrap (n + n) ∧ (n = 4 → capacity t2 = 8).
Proof.
  intros Hn Hfr.
  destruct (sized_linked n h Hfr) as [E Hl]; [lia|].
  destruct (alloc_n_room (Z.to_nat n) _ _ _ _ _ _ Hl)
    as (b & P' & Hb & Hlive & Hr & Hl1 & Hdom); [simpl; lia..|].
  simpl in Hb, Hlive, Hr, Hl1, Hdom. injection Hb as <-.
  rewrite Z2Nat.id in Hl1 by lia.
  destruct (alloc_full_fresh _ _ _ _ _ Hl1) as [Hr2 Hl2]; [done|].
  simpl in Hr2, Hl2.
  eexists _, _, _, _, _, _, _, _, _.
  split; [exact E|]. split; [exact Hr|]. split; [done|].
  split; [apply NoDup_slots|]. split.
  { apply Forall_forall. intros p (j & -> & _)%elem_of_slots. done. }
  split; [exact Hlive|]. split; [exact Hr2|].
  assert (arrays h !! S (S (S (brk h))) = None) as Enew.
  { by destruct (mem_fresh_None h (S (S (S (brk h)))) Hfr) as [_ ?]; [lia|]. }
  split_and!.
  - simpl. rewrite lookup_insert_ne by lia. done.
  - simpl. apply lookup_insert_eq.
  - intros (j & [= Hj] & _)%elem_of_slots. lia.
  - simpl. intros [= Hj]. lia.
  - done.
  - done.
  - intros ->. done.
Qed.

Lemma C4_first_allocations_witness :
  ∃ t0 h0 b ps t1 h1 b' t2 h2,
    TPoolAllocator_sized 4 empty_mem = (t0, h0) ∧
    alloc_n (Z.to_nat 4) t0 h0 = Ok (ps, t1, h1) ∧
    ps = slots b 0 (Z.to_nat 4) ∧
    NoDup ps ∧ Forall (λ p, p ≠ None) ps ∧
    arrays h1 !! b = Some 4 ∧
    alloc t1 h1 = Ok (Some (b', 0), t2, h2) ∧
    arrays h1 !! b' = None ∧ arrays h2 !! b' = Some 4 ∧
    Some (b', 0) ∉ ps ∧
    m_current t2 ≠ m_current t1 ∧
    capacity t1 = 4 ∧
    capacity t2 = wrap (4 + 4) ∧ (4 = 4 → capacity t2 = 8).
Proof.
  apply (C4_first_allocations 4 empty_mem); [split; reflexivity|].
  split; intros a [x Hx]; simpl in Hx; by rewrite lookup_empty in Hx.
Defined.



(** C6: construct with size [n], allocate [n + 1] objects (the last one
    grows the pool), [release], allocate [n + 1] objects again.  The second
    growth reuses the chunk that the first one created: no node and no
    array is created, the same pointers are handed out, the same chunk is
    active at the end, and [capacity()] is what it was after the first
    growth. *)
Theorem C6_release_then_reuse (n : Z) (h : Mem) :
  0 ≤ n < 2 ^ 64 → mem_fresh h →
  ∃ t0 h0 ps1 t1 h1 t2 h2 ps2 t3 h3,
    TPoolAllocator_sized n h = (t0, h0) ∧
    alloc_n (S (Z.to_nat n)) t0 h0 = Ok (ps1, t1, h1) ∧
    release t1 h1 = Ok (t2, h2) ∧
    alloc_n (S (Z.to_nat n)) t2 h2 = Ok (ps2, t3, h3) ∧
    capacity t1 = wrap (n + n) ∧
    capacity t3 = capacity t1 ∧
    m_current t3 = m_current t1 ∧ m_current t3 ≠ m_first t3 ∧
    arrays h3 = arrays h1 ∧ dom (pools h3) = dom (pools h1) ∧ brk h3 = brk h1 ∧
    ps2 = ps1.
Proof.
  intros Hn Hfr.
  destruct (sized_linked n h Hfr) as [E Hl]; [lia|]. cbn [snd] in E.
  (* the first n allocations fill the first chunk *)
  destruct (alloc_n_room (Z.to_nat n) _ _ _ _ _ _ Hl)
    as (b & P1 & Hb & _ & Hr1 & Hl1 & Hdom1); [simpl; lia..|].
  simpl in Hb, Hr1, Hl1, Hdom1. injection Hb as <-.
  rewrite Z2Nat.id in Hl1 by lia.
  (* the next one creates the second chunk *)
  destruct (alloc_full_fresh _ _ _ _ _ Hl1) as [Hr2 Hl2]; [done|].
  simpl in Hr2, Hl2.
  (* release *)
  destruct (release_linked _ _ _ _ _ _ Hl2) as (x & tl & P3 & E3 & Hr3 & Hl3 & Hdom3 & _).
  simpl in E3. injection E3 as <- <-. simpl in Hr3, Hl3, Hdom3.
  (* the first chunk is filled again *)
  destruct (alloc_n_room (Z.to_nat n) _ _ _ _ _ _ Hl3)
    as (b3 & P4 & Hb3 & _ & Hr4 & Hl4 & Hdom4); [simpl; lia..|].
  simpl in Hb3, Hr4, Hl4, Hdom4. injection Hb3 as <-.
  rewrite Z2Nat.id in Hl4 by lia.
  (* and the second chunk is taken from the free list *)
  destruct (alloc_full_reuse _ _ _ _ _ _ _ Hl4) as (b5 & Hb5 & _ & Hr5 & Hl5); [done|].
  simpl in Hb5, Hr5, Hl5. injection Hb5 as <-.
  eexists _, _, _, _, _, _, _, _, _, _.
  split; [exact E|]. split.
  { rewrite alloc_n_S, Hr1. simpl. rewrite Hr2. simpl. done. }
  split; [exact Hr3|]. split.
  { rewrite alloc_n_S, Hr4. simpl. rewrite Hr5. simpl. done. }
  simpl. split_and!; try done.
  - intros [= Hbrk]. lia.
  - rewrite !dom_insert_L, Hdom4, Hdom3. set_solver.
Qed.

Lemma C6_release_then_reuse_witness :
  ∃ t0 h0 ps1 t1 h1 t2 h2 ps2 t3 h3,
    TPoolAllocator_sized 4 empty_mem = (t0, h0) ∧
    alloc_n (S (Z.to_nat 4)) t0 h0 = Ok (ps1, t1, h1) ∧
    release t1 h1 = Ok (t2, h2) ∧
    alloc_n (S (Z.to_nat 4)) t2 h2 = Ok (ps2, t3, h3) ∧
    capacity t1 = wrap (4 + 4) ∧
    capacity t3 = capacity t1 ∧
    m_current t3 = m_current t1 ∧ m_current t3 ≠ m_first t3 ∧
    arrays h3 = arrays h1 ∧ dom (pools h3) = dom (pools h1) ∧ brk h3 = brk h1 ∧
    ps2 = ps1.
Proof.
  apply (C6_release_then_reuse 4 empty_mem); [split; [discriminate|reflexivity]|].
  split; intros a [x Hx]; simpl in Hx; by rewrite lookup_empty in Hx.
Defined.

(** C7 fails on the code.  [reserve] finds the chunks that it deletes by
    walking the chain from [m_first] (in [clear]), and walks only if
    [m_current] is not null.
    - After [TPoolAllocator<T> p(4); p.clear(); p.reset();] both pointers
      hold the address of the deleted head, and [p.reserve(7)] reads the
      deleted node.
    - After [TPoolAllocator<T> p(4);], five calls of [alloc], [reset] and
      one more [alloc], the second chunk (node 2 with array 3) is no
      longer on the chain (the sixth [alloc] has linked a third chunk
      behind the head).  [p.reserve(7)] returns with [capacity()] 7, and
      leaves node 2 and array 3 allocated. *)
Theorem C7_reserve_leaves_chunks :
  ∃ t0 h0 tc hc ps t1 h1 p t2 h2 t3 h3,
    TPoolAllocator_sized 4 empty_mem = (t0, h0) ∧
    clear t0 h0 = Ok (tc, hc) ∧
    reserve 7 (reset tc) hc = UB UseAfterFree ∧
    alloc_n 5 t0 h0 = Ok (ps, t1, h1) ∧
    alloc (reset t1) h1 = Ok (p, t2, h2) ∧
    reachable t2 h2 ∧
    pools h2 !! 2%nat = Some (mkPool 4 (Some 3%nat) 1 None) ∧
    arrays h2 !! 3%nat = Some 4 ∧
    is_chain (pools h2) (m_first t2)
      [(0%nat, mkPool 4 (Some 1%nat) 4 (Some 4%nat));
       (4%nat, mkPool 4 (Some 5%nat) 1 None)] ∧
    reserve 7 t2 h2 = Ok (t3, h3) ∧
    pools h3 !! 2%nat = Some (mkPool 4 (Some 3%nat) 1 None) ∧
    arrays h3 !! 3%nat = Some 4 ∧
    is_chain (pools h3) (m_first t3) [(6%nat, mkPool 7 (Some 8%nat) 0 None)] ∧
    m_current t3 = m_first t3 ∧
    capacity t3 = 7.
Proof.
  eexists _, _, _, _, _, _, _, _, _, _, _, _.
  split; [reflexivity|]. split; [vm_compute; reflexivity|].
  split; [vm_compute; reflexivity|]. split; [vm_compute; reflexivity|].
  split; [vm_compute; reflexivity|]. split.
  { apply (reach_alloc (reset two_chunks.1) two_chunks.2 (Some (5%nat, 0)));
      [|vm_compute; reflexivity].
    apply reach_reset; [apply reach_two_chunks | left; discriminate]. }
  split; [vm_compute; reflexivity|]. split; [vm_compute; reflexivity|].
  split; [vm_compute; done|]. split; [vm_compute; reflexivity|].
  split; [vm_compute; reflexivity|]. split; [vm_compute; reflexivity|].
  split; [vm_compute; done|]. split; vm_compute; reflexivity.
Qed.

(** C8: constructing the pool with an element count [n > 0] creates exactly
    one new chunk of size [n] (with a new array of [n] elements), which is
    both [m_first] and [m_current]; right after, [capacity()] is [n] and
    [freeMem()] is [n]. *)
Theorem C8_sized_constructor (n : Z) (h : Mem) :
  0 < n < 2 ^ 64 → mem_fresh h →
  ∃ a b t h',
    TPoolAllocator_sized n h = (t, h') ∧
    pools h !! a = None ∧ arrays h !! b = None ∧
    dom (pools h') = {[a]} ∪ dom (pools h) ∧
    is_chain (pools h') (m_first t) [(a, mkPool n (Some b) 0 None)] ∧
    arrays h' !! b = Some n ∧
    m_first t = Some a ∧ m_current t = Some a ∧ m_freeList t = None ∧
    capacity t = n ∧ freeMem t h' = Ok n.
Proof.
  intros Hn Hfr.
  destruct (sized_linked n h Hfr) as [E Hl]; [lia|].
  destruct (mem_fresh_None h (brk h) Hfr) as [Ea _]; [lia|].
  destruct (mem_fresh_None h (S (brk h)) Hfr) as [_ Eb]; [lia|].
  eexists (brk h), (S (brk h)), _, _. split; [exact E|].
  split_and!; try done.
  - simpl. by rewrite dom_insert_L.
  - apply (lk_first _ _ _ _ _ _ Hl).
  - simpl. apply lookup_insert_eq.
  - unfold freeMem, load. simpl. rewrite lookup_insert_eq. simpl.
    unfold wrap. rewrite Z.mod_small by lia. f_equal. lia.
Qed.

Lemma C8_sized_constructor_witness :
  ∃ a b t h',
    TPoolAllocator_sized 4 empty_mem = (t, h') ∧
    pools empty_mem !! a = None ∧ arrays empty_mem !! b = None ∧
    dom (pools h') = {[a]} ∪ dom (pools empty_mem) ∧
    is_chain (pools h') (m_first t) [(a, mkPool 4 (Some b) 0 None)] ∧
    arrays h' !! b = Some 4 ∧
    m_first t = Some a ∧ m_current t = Some a ∧ m_freeList t = None ∧
    capacity t = 4 ∧ freeMem t h' = Ok 4.
Proof.
  apply (C8_sized_constructor 4 empty_mem); [split; reflexivity|].
  split; intros a [x Hx]; simpl in Hx; by rewrite lookup_empty in Hx.
Defined.

(** C9: [clear] on any pool returns, and calling it again changes neither
    the object nor the memory: nothing is read, nothing is deleted. *)
Theorem C9_clear_twice t h :
  wf t h →
  ∃ t1 h1, clear t h = Ok (t1, h1) ∧ clear t1 h1 = Ok (t1, h1).
Proof.
  intros Hwf. destruct (clear_wf _ _ Hwf) as (t1 & h1 & Hc & Hcur & _).
  exists t1, h1. split; [done|]. by apply clear_empty.
Qed.

Lemma C9_clear_twice_witness :
  ∃ t1 h1, clear two_chunks.1 two_chunks.2 = Ok (t1, h1) ∧
           clear t1 h1 = Ok (t1, h1).
Proof.
  apply (C9_clear_twice two_chunks.1 two_chunks.2).
  apply (wf_linked _ _ [(0%nat, mkPool 4 (Some 1%nat) 4 (Some 2%nat))]
           (2%nat, mkPool 4 (Some 3%nat) 1 None) [] []).
  apply (bool_decide_unpack _). vm_compute. exact I.
Defined.

(** C10 fails on the code at [resize].  [alloc], [release], [clear] and
    [freeMem] test [m_current] before anything else and, on a pool without
    an active chunk, return without touching memory.  [dumpAllocations]
    reads [m_current->m_currentIdx] with no test: without an active chunk
    it dereferences [nullptr]; with one (a live node) it produces the count
    of the active chunk.  [reserve] installs a chunk before it uses
    [m_current].  [resize] reads [m_current] under a test, but it writes
    [m_current->m_next] under a test of [m_first] only: without an active
    chunk it returns if [m_first] is null (a pool that never had a chunk)
    and faults if [m_first] is not null.  The latter is the case after
    [clear] on any pool with an active chunk: there [resize] dereferences
    the null [m_current], whatever the grow size. *)
Theorem C10_null_guards t h :
  match m_current t with
  | None =>
      alloc t h = Ok (None, t, h) ∧
      release t h = Ok (t, h) ∧
      clear t h = Ok (t, h) ∧
      freeMem t h = Ok 0 ∧
      dumpAllocations t h = UB NullDeref ∧
      (∀ size, ∃ r, reserve size t h = Ok r) ∧
      (∀ g, match m_first t with
            | None => ∃ r, resize g t h = Ok r
            | Some _ =>
                ∃ f, resize g t h = UB f ∧ (m_freeList t = None → f = NullDeref)
            end)
  | Some a =>
      dumpAllocations t h =
        match pools h !! a with
        | Some pl =>
            Ok ("Number allocations = " +:+ pretty (m_currentIdx pl)
                  +:+ String (Ascii.ascii_of_nat 10) EmptyString)
        | None => UB UseAfterFree
        end ∧
      ∀ l1 c l2 fl, linked t h l1 c l2 fl →
        ∃ t' h', clear t h = Ok (t', h') ∧ m_current t' = None ∧
                 alloc t' h' = Ok (None, t', h') ∧
                 dumpAllocations t' h' = UB NullDeref ∧
                 ∀ g, resize g t' h' = UB NullDeref
  end.
Proof.
  unfold alloc, release, freeMem, dumpAllocations, load.
  destruct (m_current t) as [a|] eqn:Hc.
  - split; [by destruct (pools h !! a)|].
    intros l1 c l2 fl Hl.
    destruct (clear_linked _ _ _ _ _ _ Hl) as (P' & A' & Hr & _).
    eexists _, _. split; [exact Hr|]. cbn [m_current]. split; [done|].
    split; [done|]. split; [done|]. intros g.
    assert (∃ x tl, l1 ++ c :: l2 = x :: tl) as (x & tl & E).
    { destruct l1; simpl; eauto. }
    pose proof (lk_first _ _ _ _ _ _ Hl) as Hchain. rewrite E in Hchain.
    destruct Hchain as (Hx & _).
    unfold resize, getFreePool, store. cbn [m_current m_first m_freeList].
    rewrite Hx. reflexivity.
  - split_and!; try done.
    + by apply clear_empty.
    + intros size. unfold reserve. rewrite clear_empty by done. simpl.
      unfold store. simpl. rewrite lookup_insert_eq. simpl.
      rewrite lookup_insert_eq. by eexists.
    + intros g. unfold resize, getFreePool, load, store. rewrite Hc.
      destruct (m_first t) as [x|] eqn:Hf; simpl.
      * destruct (m_freeList t) as [fa|] eqn:Hfl; simpl.
        -- destruct (pools h !! fa); simpl; rewrite ?Hc; by eexists.
        -- rewrite Hc. by eexists.
      * rewrite lookup_insert_eq. by eexists.
Qed.

(** The pool after [TPoolAllocator<T> p(4); p.clear();]. *)
Lemma C10_null_guards_witness :
  clear (TPoolAllocator_sized 4 empty_mem).1 (TPoolAllocator_sized 4 empty_mem).2
    = Ok (mkAlloc (Some 0%nat) None None 4, mkMem ∅ ∅ 2%nat) ∧
  alloc (mkAlloc (Some 0%nat) None None 4) (mkMem ∅ ∅ 2%nat)
    = Ok (None, mkAlloc (Some 0%nat) None None 4, mkMem ∅ ∅ 2%nat) ∧
  freeMem (mkAlloc (Some 0%nat) None None 4) (mkMem ∅ ∅ 2%nat) = Ok 0 ∧
  dumpAllocations (mkAlloc (Some 0%nat) None None 4) (mkMem ∅ ∅ 2%nat)
    = UB NullDeref ∧
  resize 4 (mkAlloc (Some 0%nat) None None 4) (mkMem ∅ ∅ 2%nat) = UB NullDeref.
Proof.
  split; [vm_compute; reflexivity|].
  pose proof (C10_null_guards (mkAlloc (Some 0%nat) None None 4) (mkMem ∅ ∅ 2%nat))
    as (Ha & _ & _ & Hfm & Hd & _ & Hrz).
  destruct (Hrz 4) as (f & Hf & Hnull).
  split; [exact Ha|]. split; [exact Hfm|]. split; [exact Hd|].
  rewrite Hf. f_equal. by apply Hnull.
Defined.

(** * Further properties *)

(** X1: every state that a program reaches through the public member
    functions ([resize] and [reset] not on a cleared pool) is a pool:
    without active chunk and free list, or a null-terminated chain of
    distinct nodes with distinct live arrays of the recorded sizes, in
    which [m_current] lies and of which the free list is a tail behind
    [m_current]; and the chunk sizes do not decrease along the chain. *)
Theorem X1_reachable_invariant t h :
  reachable t h →
  wf t h ∧ (m_current t ≠ None → chain_sizes_monotone t h).
Proof.
  intros Hr. pose proof (reachable_wf _ _ Hr) as Hwf. split; [done|].
  intros Hc. destruct Hwf as [Hnone _ _|l1 c l2 fl Hl]; [done|].
  by eapply linked_monotone.
Qed.

Lemma X1_reachable_invariant_witness :
  wf two_chunks.1 two_chunks.2 ∧
  (m_current two_chunks.1 ≠ None → chain_sizes_monotone two_chunks.1 two_chunks.2).
Proof.
  apply (X1_reachable_invariant two_chunks.1 two_chunks.2).
  apply (reach_alloc (mkAlloc (Some 0%nat) (Some 0%nat) None 4)
           (mkMem (<[0%nat := mkPool 4 (Some 1%nat) 4 None]> ∅) (<[1%nat := 4]> ∅) 2%nat)
           (Some (3%nat, 0))); [|vm_compute; reflexivity].
  apply (reach_alloc (mkAlloc (Some 0%nat) (Some 0%nat) None 4)
           (mkMem (<[0%nat := mkPool 4 (Some 1%nat) 3 None]> ∅) (<[1%nat := 4]> ∅) 2%nat)
           (Some (1%nat, 3))); [|vm_compute; reflexivity].
  apply (reach_alloc (mkAlloc (Some 0%nat) (Some 0%nat) None 4)
           (mkMem (<[0%nat := mkPool 4 (Some 1%nat) 2 None]> ∅) (<[1%nat := 4]> ∅) 2%nat)
           (Some (1%nat, 2))); [|vm_compute; reflexivity].
  apply (reach_alloc (mkAlloc (Some 0%nat) (Some 0%nat) None 4)
           (mkMem (<[0%nat := mkPool 4 (Some 1%nat) 1 None]> ∅) (<[1%nat := 4]> ∅) 2%nat)
           (Some (1%nat, 1))); [|vm_compute; reflexivity].
  apply (reach_alloc (TPoolAllocator_sized 4 empty_mem).1 (TPoolAllocator_sized 4 empty_mem).2
           (Some (1%nat, 0))); [|vm_compute; reflexivity].
  apply reach_sized.
  - apply (bool_decide_unpack _). vm_compute. exact I.
  - split; [discriminate|reflexivity].
Defined.

(** X2: on a pool, no call of [alloc], [release], [clear], [freeMem] or
    [reserve] dereferences a null or dangling pointer, deletes twice or
    loops for ever, and the first three leave a pool again; with an active
    chunk this also holds for [resize] and [dumpAllocations]. *)
Theorem X2_member_functions_return t h :
  wf t h →
  (∃ p t' h', alloc t h = Ok (p, t', h') ∧ wf t' h') ∧
  (∃ t' h', release t h = Ok (t', h') ∧ wf t' h') ∧
  (∃ t' h', clear t h = Ok (t', h') ∧ wf t' h') ∧
  (∃ z, freeMem t h = Ok z) ∧
  (∀ m, 0 ≤ m < 2 ^ 64 → ∃ t' h', reserve m t h = Ok (t', h') ∧ wf t' h') ∧
  (m_current t ≠ None →
     (∀ g, 0 ≤ g < 2 ^ 64 → ∃ t' h', resize g t h = Ok (t', h') ∧ wf t' h') ∧
     wf (reset t) h ∧
     ∃ s, dumpAllocations t h = Ok s).
Proof.
  intros Hwf. split_and!.
  - destruct (alloc_wf _ _ Hwf) as (p & t' & h' & Hr & _ & Hwf'). by eauto.
  - by apply release_wf.
  - by apply clear_wf_wf.
  - destruct Hwf as [Hc _ _|l1 c l2 fl Hl].
    + exists 0. unfold freeMem. by rewrite Hc.
    + destruct (linked_current _ _ _ _ _ _ Hl) as (b & Hc & Hlook & _).
      eexists. unfold freeMem, load. by rewrite Hc, Hlook.
  - intros m Hm. by apply reserve_wf_wf.
  - intros Hc. destruct Hwf as [Hnone _ _|l1 c l2 fl Hl]; [done|]. split_and!.
    + intros g Hg. destruct (resize_wf g _ _ _ _ _ _ Hl Hg) as (t' & h' & Hr & Hwf' & _).
      by eauto.
    + by eapply reset_wf.
    + destruct (linked_current _ _ _ _ _ _ Hl) as (b & Hcur & Hlook & _).
      eexists. unfold dumpAllocations, load. by rewrite Hcur, Hlook.
Qed.

Lemma X2_member_functions_return_witness :
  (∃ p t' h', alloc two_chunks.1 two_chunks.2 = Ok (p, t', h') ∧ wf t' h') ∧
  (∃ t' h', release two_chunks.1 two_chunks.2 = Ok (t', h') ∧ wf t' h') ∧
  (∃ t' h', clear two_chunks.1 two_chunks.2 = Ok (t', h') ∧ wf t' h') ∧
  (∃ z, freeMem two_chunks.1 two_chunks.2 = Ok z) ∧
  (∀ m, 0 ≤ m < 2 ^ 64 →
     ∃ t' h', reserve m two_chunks.1 two_chunks.2 = Ok (t', h') ∧ wf t' h') ∧
  (m_current two_chunks.1 ≠ None →
     (∀ g, 0 ≤ g < 2 ^ 64 →
        ∃ t' h', resize g two_chunks.1 two_chunks.2 = Ok (t', h') ∧ wf t' h') ∧
     wf (reset two_chunks.1) two_chunks.2 ∧
     ∃ s, dumpAllocations two_chunks.1 two_chunks.2 = Ok s).
Proof.
  apply (X2_member_functions_return two_chunks.1 two_chunks.2).
  apply (wf_linked _ _ [(0%nat, mkPool 4 (Some 1%nat) 4 (Some 2%nat))]
           (2%nat, mkPool 4 (Some 3%nat) 1 None) [] []).
  apply (bool_decide_unpack _). vm_compute. exact I.
Defined.

(** X3: the first [resize(g)] on a default-constructed pool leaves exactly
    what the constructor [TPoolAllocator(g)] builds. *)
Theorem X3_resize_default_is_sized_constructor (g : Z) (h : Mem) :
  resize g TPoolAllocator_default h = Ok (TPoolAllocator_sized g h).
Proof.
  unfold resize, TPoolAllocator_sized, load. simpl.
  by rewrite lookup_insert_eq.
Qed.

(** X4: with a chunk on the free list, [resize(g)] does not look at [g]
    beyond the test against the active chunk: every [g] that passes the
    test gives the same pool, whose active chunk is the first chunk of the
    free list as it is, however large [g] is; nothing is created and
    [capacity()] stays. *)
Theorem X4_resize_reuse_ignores_growSize g1 g2 t h l1 c l2 f fl :
  linked t h l1 c l2 (f :: fl) →
  m_poolsize c.2 ≤ g1 → m_poolsize c.2 ≤ g2 →
  resize g1 t h = resize g2 t h ∧
  ∃ t' h',
    resize g1 t h = Ok (t', h') ∧
    m_current t' = Some f.1 ∧ pools h' !! f.1 = Some f.2 ∧
    capacity t' = capacity t ∧ arrays h' = arrays h ∧
    dom (pools h') = dom (pools h).
Proof.
  intros Hl H1 H2.
  destruct (resize_reuse g1 _ _ _ _ _ _ _ Hl H1) as [Hr1 Hl'].
  destruct (resize_reuse g2 _ _ _ _ _ _ _ Hl H2) as [Hr2 _].
  split; [by rewrite Hr1, Hr2|].
  eexists _, _. split; [exact Hr1|].
  destruct (linked_current _ _ _ _ _ _ Hl') as (_ & _ & Hlook & _).
  destruct (linked_inv _ _ _ _ _ _ Hl) as (_ & Hc & _).
  split_and!; try done. simpl. rewrite dom_insert_L.
  assert (c.1 ∈ dom (pools h)) by (apply elem_of_dom; eauto). set_solver.
Qed.

Lemma X4_resize_reuse_ignores_growSize_witness :
  resize 4 head_full.1 head_full.2 = resize 1000 head_full.1 head_full.2 ∧
  ∃ t' h',
    resize 4 head_full.1 head_full.2 = Ok (t', h') ∧
    m_current t' = Some 2%nat ∧
    pools h' !! 2%nat = Some (mkPool 4 (Some 3%nat) 0 None) ∧
    capacity t' = capacity head_full.1 ∧ arrays h' = arrays head_full.2 ∧
    dom (pools h') = dom (pools head_full.2).
Proof.
  apply (X4_resize_reuse_ignores_growSize 4 1000 head_full.1 head_full.2 []
           (0%nat, mkPool 4 (Some 1%nat) 4 (Some 2%nat))
           [(2%nat, mkPool 4 (Some 3%nat) 0 None)]
           (2%nat, mkPool 4 (Some 3%nat) 0 None) []).
  - apply (bool_decide_unpack _). vm_compute. exact I.
  - discriminate.
  - discriminate.
Defined.

(** X5: on a pool none of whose chunks is empty, [freeMem()] is the
    number of slots left in the active chunk; it is 0 exactly when the next
    [alloc] makes another chunk the active one, and otherwise that [alloc]
    lowers it by one. *)
Theorem X5_freeMem_zero_iff_growth t h l1 c l2 fl :
  linked t h l1 c l2 fl → cursors_ok (l1 ++ c :: l2) fl →
  ∃ z p t' h',
    freeMem t h = Ok z ∧ alloc t h = Ok (p, t', h') ∧
    z = m_poolsize c.2 - m_currentIdx c.2 ∧
    (z = 0 ↔ m_current t' ≠ m_current t) ∧
    (z ≠ 0 → freeMem t' h' = Ok (z - 1)).
Proof.
  intros Hl [Hcur _].
  destruct (linked_current _ _ _ _ _ _ Hl) as (bc & Hcurrent & Hlook & _ & _ & Hsz).
  rewrite Forall_app, Forall_cons in Hcur. destruct Hcur as (_ & Hcc & _).
  assert (freeMem t h = Ok (m_poolsize c.2 - m_currentIdx c.2)) as Hfm.
  { unfold freeMem, load. rewrite Hcurrent, Hlook. simpl.
    by rewrite wrap_small by lia. }
  destruct (decide (m_currentIdx c.2 = m_poolsize c.2)) as [Hfull|Hroom].
  - destruct fl as [|f fl].
    + destruct (alloc_full_fresh _ _ _ _ _ Hl Hfull) as [Hr _].
      eexists _, _, _, _. split; [exact Hfm|]. split; [exact Hr|].
      split; [done|]. split; [|lia]. split; [|lia].
      intros _. rewrite Hcurrent. simpl. intros [= E].
      destruct (lk_fresh _ _ _ _ _ _ Hl) as [F _].
      assert (c.1 < brk h)%nat by (apply F; by rewrite Hlook). lia.
    + destruct (alloc_full_reuse _ _ _ _ _ _ _ Hl Hfull) as (b & _ & _ & Hr & _).
      eexists _, _, _, _. split; [exact Hfm|]. split; [exact Hr|].
      split; [done|]. split; [|lia]. split; [|lia].
      intros _. rewrite Hcurrent. simpl. intros [= E].
      destruct (linked_free_notin _ _ _ _ _ _ f Hl) as [Hne _]; [left|]. done.
  - destruct (alloc_room _ _ _ _ _ _ Hl Hroom) as (b & _ & _ & Hr & Hl').
    eexists _, _, _, _. split; [exact Hfm|]. split; [exact Hr|].
    split; [done|]. split; [split; [lia|done]|].
    intros _. unfold freeMem, load. rewrite Hcurrent. simpl.
    rewrite lookup_insert_eq. simpl.
    rewrite (wrap_small (m_currentIdx c.2 + 1)) by lia.
    rewrite wrap_small by lia. f_equal. lia.
Qed.

Lemma X5_freeMem_zero_iff_growth_witness :
  ∃ z p t' h',
    freeMem head_full.1 head_full.2 = Ok z ∧
    alloc head_full.1 head_full.2 = Ok (p, t', h') ∧
    z = 4 - 4 ∧
    (z = 0 ↔ m_current t' ≠ m_current head_full.1) ∧
    (z ≠ 0 → freeMem t' h' = Ok (z - 1)).
Proof.
  apply (X5_freeMem_zero_iff_growth head_full.1 head_full.2 []
           (0%nat, mkPool 4 (Some 1%nat) 4 (Some 2%nat))
           [(2%nat, mkPool 4 (Some 3%nat) 0 None)]
           [(2%nat, mkPool 4 (Some 3%nat) 0 None)]).
  - apply (bool_decide_unpack _). vm_compute. exact I.
  - apply (bool_decide_unpack _). vm_compute. exact I.
Defined.

(** X6: after [clear] on a pool with an active chunk, [m_first] is stale:
    every [resize] writes through the null [m_current], and after [reset]
    every [alloc], [release], [clear] and [reserve] reads the deleted head
    node. *)
Theorem X6_use_after_clear t h l1 c l2 fl :
  linked t h l1 c l2 fl →
  ∃ t' h',
    clear t h = Ok (t', h') ∧
    (∀ g, resize g t' h' = UB NullDeref) ∧
    alloc (reset t') h' = UB UseAfterFree ∧
    release (reset t') h' = UB UseAfterFree ∧
    clear (reset t') h' = UB UseAfterFree ∧
    (∀ m, reserve m (reset t') h' = UB UseAfterFree).
Proof.
  intros Hl.
  destruct (clear_linked_stale _ _ _ _ _ _ Hl) as (t' & h' & Hr & Hf & Hload & _).
  destruct (clear_wf _ _ (wf_linked _ _ _ _ _ _ Hl))
    as (t2 & h2 & Hr2 & Hcur & Hfl & _).
  rewrite Hr in Hr2. injection Hr2 as <- <-.
  destruct (linked_inv _ _ _ _ _ _ Hl) as (_ & _ & _ & _ & _ & a & Ha).
  rewrite Ha in Hf. rewrite Hf in Hload. unfold load in Hload.
  destruct (pools h' !! a) eqn:Hlook; [done|]. clear Hload.
  assert (clear (reset t') h' = UB UseAfterFree) as Hclear.
  { unfold clear, reset, fuel_of. simpl. rewrite Hf. simpl.
    unfold load. by rewrite Hlook. }
  exists t', h'. split; [done|]. split_and!.
  - intros g. unfold resize, getFreePool. rewrite Hcur, Hf, Hfl. simpl.
    unfold store. by rewrite Hcur.
  - unfold alloc, reset, load. simpl. rewrite Hf. by rewrite Hlook.
  - unfold release, reset, fuel_of. simpl. rewrite Hf. simpl.
    unfold store. by rewrite Hlook.
  - done.
  - intros m. unfold reserve. by rewrite Hclear.
Qed.

Lemma X6_use_after_clear_witness :
  ∃ t' h',
    clear two_chunks.1 two_chunks.2 = Ok (t', h') ∧
    (∀ g, resize g t' h' = UB NullDeref) ∧
    alloc (reset t') h' = UB UseAfterFree ∧
    release (reset t') h' = UB UseAfterFree ∧
    clear (reset t') h' = UB UseAfterFree ∧
    (∀ m, reserve m (reset t') h' = UB UseAfterFree).
Proof.
  apply (X6_use_after_clear two_chunks.1 two_chunks.2
           [(0%nat, mkPool 4 (Some 1%nat) 4 (Some 2%nat))]
           (2%nat, mkPool 4 (Some 3%nat) 1 None) [] []).
  apply (bool_decide_unpack _). vm_compute. exact I.
Defined.

(** X7: a chunk of size 0.  On a pool whose active chunk has size 0 and
    cursor 0 (as right after [reserve(0)], or construction or growth with
    size 0) and whose free list is empty, [alloc] links another chunk of
    size 0 and returns the end of its empty array; the cursor of that
    chunk is then past the end, [freeMem()] wraps around to [2^64 - 1],
    and the next [alloc] returns the address one element past the end
    without moving to another chunk. *)
Theorem X7_chunk_of_size_zero t h l1 c l2 :
  linked t h l1 c l2 [] → m_poolsize c.2 = 0 → m_currentIdx c.2 = 0 →
  ∃ b t1 h1 t2 h2,
    alloc t h = Ok (Some (b, 0), t1, h1) ∧
    arrays h !! b = None ∧ arrays h1 !! b = Some 0 ∧
    freeMem t1 h1 = Ok (2 ^ 64 - 1) ∧
    alloc t1 h1 = Ok (Some (b, 1), t2, h2) ∧
    m_current t2 = m_current t1 ∧ arrays h2 = arrays h1.
Proof.
  intros Hl Hsz Hidx.
  destruct (alloc_full_fresh _ _ _ _ _ Hl) as [Hr Hl1]; [congruence|].
  rewrite Hsz in Hr, Hl1. assert (wrap (0 + 1) = 1) as Hw by done. rewrite Hw in *.
  destruct (alloc_room _ _ _ _ _ _ Hl1) as (b & Hb & _ & Hr2 & _); [done|].
  simpl in Hb. injection Hb as <-. simpl in Hr2.
  destruct (mem_fresh_None h (S (brk h)) (lk_fresh _ _ _ _ _ _ Hl)) as [_ Eb]; [lia|].
  eexists _, _, _, _, _. split; [exact Hr|]. split_and!.
  - done.
  - simpl. apply lookup_insert_eq.
  - unfold freeMem, load. simpl. rewrite lookup_insert_eq. done.
  - exact Hr2.
  - done.
  - done.
Qed.

Lemma X7_chunk_of_size_zero_witness :
  ∃ b t1 h1 t2 h2,
    alloc (mkAlloc (Some 0%nat) (Some 0%nat) None 0)
      (mkMem (<[0%nat := mkPool 0 (Some 2%nat) 0 None]> ∅)
         (<[2%nat := 0]> (<[1%nat := 0]> ∅)) 3%nat)
      = Ok (Some (b, 0), t1, h1) ∧
    arrays (mkMem (<[0%nat := mkPool 0 (Some 2%nat) 0 None]> ∅)
              (<[2%nat := 0]> (<[1%nat := 0]> ∅)) 3%nat) !! b = None ∧
    arrays h1 !! b = Some 0 ∧
    freeMem t1 h1 = Ok (2 ^ 64 - 1) ∧
    alloc t1 h1 = Ok (Some (b, 1), t2, h2) ∧
    m_current t2 = m_current t1 ∧ arrays h2 = arrays h1.
Proof.
  apply (X7_chunk_of_size_zero _ _ [] (0%nat, mkPool 0 (Some 2%nat) 0 None) []).
  - apply (bool_decide_unpack _). vm_compute. exact I.
  - reflexivity.
  - reflexivity.
Defined.

(** X8: [dumpAllocations] reports the cursor of the active chunk only.
    After [k <= n] calls of [alloc] on a pool constructed with size [n] it
    writes [k], and [freeMem()] is [n - k]; after [n + 1] calls it writes
    1. *)
Theorem X8_dumpAllocations_counts (n : Z) (k : nat) (h : Mem) :
  0 < n < 2 ^ 64 → mem_fresh h → Z.of_nat k ≤ n →
  ∃ t0 h0 ps t1 h1 ps' t2 h2,
    TPoolAllocator_sized n h = (t0, h0) ∧
    alloc_n k t0 h0 = Ok (ps, t1, h1) ∧
    dumpAllocations t1 h1 =
      Ok ("Number allocations = " +:+ pretty (Z.of_nat k)
            +:+ String (Ascii.ascii_of_nat 10) EmptyString) ∧
    freeMem t1 h1 = Ok (n - Z.of_nat k) ∧
    alloc_n (S (Z.to_nat n)) t0 h0 = Ok (ps', t2, h2) ∧
    dumpAllocations t2 h2 =
      Ok ("Number allocations = " +:+ pretty 1
            +:+ String (Ascii.ascii_of_nat 10) EmptyString).
Proof.
  intros Hn Hfr Hk.
  destruct (sized_linked n h Hfr) as [E Hl]; [lia|]. cbn [snd] in E.
  destruct (alloc_n_room k _ _ _ _ _ _ Hl)
    as (b & P1 & _ & _ & Hr1 & Hl1 & _); [simpl; lia..|].
  destruct (alloc_n_room (Z.to_nat n) _ _ _ _ _ _ Hl)
    as (b2 & P2 & _ & _ & Hr2 & Hl2 & _); [simpl; lia..|].
  simpl in Hr1, Hl1, Hr2, Hl2. rewrite Z2Nat.id in Hl2 by lia.
  destruct (alloc_full_fresh _ _ _ _ _ Hl2) as [Hr3 Hl3]; [done|].
  simpl in Hr3, Hl3.
  destruct (linked_current _ _ _ _ _ _ Hl1) as (_ & Hc1 & Hlook1 & _).
  destruct (linked_current _ _ _ _ _ _ Hl3) as (_ & Hc3 & Hlook3 & _).
  eexists _, _, _, _, _, _, _, _. split; [exact E|]. split; [exact Hr1|].
  split_and!.
  - unfold dumpAllocations, load. by rewrite Hc1, Hlook1.
  - unfold freeMem, load. rewrite Hc1, Hlook1. simpl.
    rewrite wrap_small by lia. f_equal; lia.
  - rewrite alloc_n_S, Hr2. simpl. by rewrite Hr3.
  - unfold dumpAllocations, load. by rewrite Hc3, Hlook3.
Qed.

Lemma X8_dumpAllocations_counts_witness :
  ∃ t0 h0 ps t1 h1 ps' t2 h2,
    TPoolAllocator_sized 4 empty_mem = (t0, h0) ∧
    alloc_n 3 t0 h0 = Ok (ps, t1, h1) ∧
    dumpAllocations t1 h1 =
      Ok ("Number allocations = " +:+ pretty (Z.of_nat 3)
            +:+ String (Ascii.ascii_of_nat 10) EmptyString) ∧
    freeMem t1 h1 = Ok (4 - Z.of_nat 3) ∧
    alloc_n (S (Z.to_nat 4)) t0 h0 = Ok (ps', t2, h2) ∧
    dumpAllocations t2 h2 =
      Ok ("Number allocations = " +:+ pretty 1
            +:+ String (Ascii.ascii_of_nat 10) EmptyString).
Proof.
  apply (X8_dumpAllocations_counts 4 3 empty_mem).
  - split; reflexivity.
  - apply (bool_decide_unpack _). vm_compute. exact I.
  - discriminate.
Defined.

(** X9: [release] twice is [release] once: the second call changes neither
    the object nor the memory. *)
Theorem X9_release_idempotent t h :
  wf t h →
  ∃ t1 h1, release t h = Ok (t1, h1) ∧ release t1 h1 = Ok (t1, h1).
Proof.
  intros [Hc Hf Hfr|l1 c l2 fl Hl].
  { exists t, h. unfold release. by rewrite Hc. }
  destruct (release_linked _ _ _ _ _ _ Hl) as (x & tl & P' & E & Hr & Hl' & _).
  eexists _, _. split; [exact Hr|].
  pose proof (lk_first _ _ _ _ _ _ Hl') as Hchain. simpl in Hchain.
  destruct (linked_current _ _ _ _ _ _ Hl') as (_ & Hcur & Hlook & _).
  unfold release. rewrite Hcur. cbn [m_first].
  rewrite (release_loop_zeroed _ _ _ (zero x :: (zero <$> tl))).
  - simpl. unfold load. destruct Hchain as (-> & _). by rewrite Hlook.
  - exact Hchain.
  - apply Forall_cons. split; [done|]. apply Forall_fmap, Forall_true. done.
  - apply (linked_fuel _ _ _ _ _ _ Hl').
Qed.

Lemma X9_release_idempotent_witness :
  ∃ t1 h1, release two_chunks.1 two_chunks.2 = Ok (t1, h1) ∧
           release t1 h1 = Ok (t1, h1).
Proof.
  apply (X9_release_idempotent two_chunks.1 two_chunks.2).
  apply (wf_linked _ _ [(0%nat, mkPool 4 (Some 1%nat) 4 (Some 2%nat))]
           (2%nat, mkPool 4 (Some 3%nat) 1 None) [] []).
  apply (bool_decide_unpack _). vm_compute. exact I.
Defined.

(** X10: [alloc], [release] and [resize] never delete: on a pool with an
    active chunk every node and every array that exists before the call
    exists after it, the arrays with their lengths (so pointers handed out
    earlier still point into live arrays).  [reset] does not touch memory
    at all. *)
Theorem X10_nothing_deleted t h l1 c l2 fl :
  linked t h l1 c l2 fl →
  (∃ p t' h', alloc t h = Ok (p, t', h') ∧
     arrays h ⊆ arrays h' ∧ dom (pools h) ⊆ dom (pools h')) ∧
  (∃ t' h', release t h = Ok (t', h') ∧
     arrays h' = arrays h ∧ dom (pools h') = dom (pools h)) ∧
  (∀ g, 0 ≤ g < 2 ^ 64 →
     ∃ t' h', resize g t h = Ok (t', h') ∧
       arrays h ⊆ arrays h' ∧ dom (pools h) ⊆ dom (pools h')).
Proof.
  intros Hl. pose proof (lk_fresh _ _ _ _ _ _ Hl) as Hfr.
  destruct (mem_fresh_None h (S (brk h)) Hfr) as [_ Eb]; [lia|].
  split_and!.
  - destruct (decide (m_currentIdx c.2 = m_poolsize c.2)) as [Hfull|Hroom].
    + destruct fl as [|f fl].
      * destruct (alloc_full_fresh _ _ _ _ _ Hl Hfull) as [Hr _].
        eexists _, _, _. split; [exact Hr|]. simpl. split.
        -- by apply insert_subseteq.
        -- rewrite !dom_insert. set_solver.
      * destruct (alloc_full_reuse _ _ _ _ _ _ _ Hl Hfull) as (b & _ & _ & Hr & _).
        eexists _, _, _. split; [exact Hr|]. simpl. split; [done|].
        rewrite !dom_insert. set_solver.
    + destruct (alloc_room _ _ _ _ _ _ Hl Hroom) as (b & _ & _ & Hr & _).
      eexists _, _, _. split; [exact Hr|]. simpl. split; [done|].
      rewrite !dom_insert. set_solver.
  - destruct (release_linked _ _ _ _ _ _ Hl) as (x & tl & P' & _ & Hr & _ & Hdom & _).
    eexists _, _. split; [exact Hr|]. done.
  - intros g Hg. destruct (Z.lt_ge_cases g (m_poolsize c.2)) as [Hlt|Hge].
    + exists t, h. split; [by eapply resize_small|]. done.
    + destruct fl as [|f fl].
      * destruct (resize_fresh g _ _ _ _ _ Hl) as [Hr _]; [lia|].
        eexists _, _. split; [exact Hr|]. simpl. split.
        -- by apply insert_subseteq.
        -- rewrite !dom_insert. set_solver.
      * destruct (resize_reuse g _ _ _ _ _ _ _ Hl Hge) as [Hr _].
        eexists _, _. split; [exact Hr|]. simpl. split; [done|].
        rewrite !dom_insert. set_solver.
Qed.

Lemma X10_nothing_deleted_witness :
  (∃ p t' h', alloc two_chunks.1 two_chunks.2 = Ok (p, t', h') ∧
     arrays two_chunks.2 ⊆ arrays h' ∧ dom (pools two_chunks.2) ⊆ dom (pools h')) ∧
  (∃ t' h', release two_chunks.1 two_chunks.2 = Ok (t', h') ∧
     arrays h' = arrays two_chunks.2 ∧ dom (pools h') = dom (pools two_chunks.2)) ∧
  (∀ g, 0 ≤ g < 2 ^ 64 →
     ∃ t' h', resize g two_chunks.1 two_chunks.2 = Ok (t', h') ∧
       arrays two_chunks.2 ⊆ arrays h' ∧
       dom (pools two_chunks.2) ⊆ dom (pools h')).
Proof.
  apply (X10_nothing_deleted two_chunks.1 two_chunks.2
           [(0%nat, mkPool 4 (Some 1%nat) 4 (Some 2%nat))]
           (2%nat, mkPool 4 (Some 3%nat) 1 None) [] []).
  apply (bool_decide_unpack _). vm_compute. exact I.
Defined.

(** X11: [reset] followed by growth loses chunks.  On a pool of at least
    two chunks with a full head and an empty free list, [alloc] after
    [reset] links a new chunk directly behind the head.  The chunks that
    were behind the head are no longer on the chain: [clear] (and so the
    destructor) leaves their nodes and their arrays allocated. *)
Theorem X11_reset_then_growth_drops_chunks t h l1 c l2 x y tl :
  linked t h l1 c l2 [] → l1 ++ c :: l2 = x :: y :: tl →
  m_currentIdx x.2 = m_poolsize x.2 →
  ∃ p a t1 h1 t2 h2,
    alloc (reset t) h = Ok (p, t1, h1) ∧
    m_current t1 = Some a ∧ pools h !! a = None ∧
    is_chain (pools h1) (m_first t1)
      [(x.1, set_next (Some a) x.2);
       (a, mkPool (m_poolsize x.2) (option_map fst p) 1 None)] ∧
    TPoolAllocator_destroy t1 h1 = Ok (t2, h2) ∧
    Forall (λ z, pools h2 !! z.1 = Some z.2 ∧
                 ∃ b, m_pool z.2 = Some b ∧
                      arrays h2 !! b = Some (m_poolsize z.2)) (y :: tl).
Proof.
  intros Hl E Hfull.
  pose proof (reset_linked _ _ _ _ _ _ _ _ Hl E) as Hl0.
  destruct (alloc_full_fresh _ _ _ _ _ Hl0 Hfull) as [Hr Hl1].
  assert (wrap (0 + 1) = 1) as Hw by done. rewrite Hw in *.
  destruct (clear_linked _ _ _ _ _ _ Hl1) as (P' & A' & Hc & HP & HA & _).
  pose proof (lk_fresh _ _ _ _ _ _ Hl) as Hfr.
  destruct (mem_fresh_None h (brk h) Hfr) as [Ea _]; [lia|].
  pose proof (lk_chunks _ _ _ _ _ _ Hl) as Hok. rewrite E in Hok.
  destruct (chunks_ok_cons_inv _ _ _ Hok) as (Hxa & Hxb & _).
  pose proof (lk_first _ _ _ _ _ _ Hl) as Hchain. rewrite E in Hchain.
  eexists _, (brk h), _, _, _, _. split; [exact Hr|]. split_and!.
  - done.
  - done.
  - apply (lk_first _ _ _ _ _ _ Hl1).
  - exact Hc.
  - apply Forall_forall. intros z Hz.
    assert (z ∈ x :: y :: tl) as Hz' by (by right).
    pose proof (is_seg_lookup _ _ _ _ _ Hchain Hz') as Hlook.
    destruct (chunks_ok_live _ _ z Hok Hz') as (b & Hb & Hlive & _).
    destruct Hfr as [F1 F2].
    assert (z.1 < brk h)%nat by (apply F1; by rewrite Hlook).
    assert (b < brk h)%nat by (apply F2; by rewrite Hlive).
    assert (z.1 ≠ x.1).
    { intros Eq. apply Hxa. rewrite <- Eq. apply list_elem_of_fmap. by exists z. }
    assert (Some b ≠ m_pool x.2).
    { intros Eq. apply Hxb. rewrite <- Eq, <- Hb. apply list_elem_of_fmap.
      exists z.2. split; [done|]. apply list_elem_of_fmap. by exists z. }
    split.
    + rewrite HP. simpl. rewrite decide_False.
      * rewrite lookup_insert_ne by lia. rewrite lookup_insert_ne by done.
        rewrite lookup_insert_ne by lia. done.
      * intros [?|[?|?%elem_of_nil]%elem_of_cons]%elem_of_cons; [done|lia|done].
    + exists b. split; [done|]. rewrite HA. simpl. rewrite decide_False.
      * rewrite lookup_insert_ne by lia. done.
      * intros [?|[[= ?]|?%elem_of_nil]%elem_of_cons]%elem_of_cons; [done|lia|done].
Qed.

Lemma X11_reset_then_growth_drops_chunks_witness :
  ∃ p a t1 h1 t2 h2,
    alloc (reset two_chunks.1) two_chunks.2 = Ok (p, t1, h1) ∧
    m_current t1 = Some a ∧ pools two_chunks.2 !! a = None ∧
    is_chain (pools h1) (m_first t1)
      [(0%nat, set_next (Some a) (mkPool 4 (Some 1%nat) 4 (Some 2%nat)));
       (a, mkPool 4 (option_map fst p) 1 None)] ∧
    TPoolAllocator_destroy t1 h1 = Ok (t2, h2) ∧
    Forall (λ z, pools h2 !! z.1 = Some z.2 ∧
                 ∃ b, m_pool z.2 = Some b ∧
                      arrays h2 !! b = Some (m_poolsize z.2))
      [(2%nat, mkPool 4 (Some 3%nat) 1 None)].
Proof.
  apply (X11_reset_then_growth_drops_chunks two_chunks.1 two_chunks.2
           [(0%nat, mkPool 4 (Some 1%nat) 4 (Some 2%nat))]
           (2%nat, mkPool 4 (Some 3%nat) 1 None) []
           (0%nat, mkPool 4 (Some 1%nat) 4 (Some 2%nat))
           (2%nat, mkPool 4 (Some 3%nat) 1 None) []).
  - apply (bool_decide_unpack _). vm_compute. exact I.
  - reflexivity.
  - reflexivity.
Defined.

(** X12: [reserve] allocates two arrays and keeps one.  The array that the
    [Pool] constructor allocates is replaced in the node by a second array
    of the same length; the first one stays allocated, also after the
    destructor, which deletes the node and the second array. *)
Theorem X12_reserve_leaves_an_array (m : Z) t h :
  wf t h → 0 ≤ m < 2 ^ 64 →
  ∃ a b b' t1 h1 t2 h2,
    reserve m t h = Ok (t1, h1) ∧
    arrays h !! b = None ∧ arrays h !! b' = None ∧ b ≠ b' ∧
    arrays h1 !! b = Some m ∧ arrays h1 !! b' = Some m ∧
    m_current t1 = Some a ∧
    pools h1 !! a = Some (mkPool m (Some b') 0 None) ∧
    TPoolAllocator_destroy t1 h1 = Ok (t2, h2) ∧
    pools h2 !! a = None ∧ arrays h2 !! b' = None ∧
    arrays h2 !! b = Some m.
Proof.
  intros Hwf Hm. pose proof (wf_fresh _ _ Hwf) as Hfr.
  destruct (reserve_wf m t h Hwf Hm) as (tc & hc & Hclear & Hr & Hl).
  destruct (clear_linked _ _ _ _ _ _ Hl) as (P' & A' & Hc & HP & HA & _).
  destruct (mem_fresh_None h (S (brk h)) Hfr) as [_ Eb]; [lia|].
  destruct (mem_fresh_None h (S (S (brk h))) Hfr) as [_ Eb']; [lia|].
  eexists (brk h), (S (brk h)), (S (S (brk h))), _, _, _, _.
  split; [exact Hr|]. split_and!.
  - done.
  - done.
  - lia.
  - simpl. rewrite lookup_insert_ne by lia. apply lookup_insert_eq.
  - simpl. apply lookup_insert_eq.
  - done.
  - simpl. apply lookup_insert_eq.
  - exact Hc.
  - rewrite HP. simpl. rewrite decide_True; [done|left].
  - rewrite HA. simpl. rewrite decide_True; [done|left].
  - rewrite HA. simpl. rewrite decide_False.
    + rewrite lookup_insert_ne by lia. apply lookup_insert_eq.
    + intros [[= ?]|?%elem_of_nil]%elem_of_cons; [lia|done].
Qed.

Lemma X12_reserve_leaves_an_array_witness :
  ∃ a b b' t1 h1 t2 h2,
    reserve 7 two_chunks.1 two_chunks.2 = Ok (t1, h1) ∧
    arrays two_chunks.2 !! b = None ∧ arrays two_chunks.2 !! b' = None ∧ b ≠ b' ∧
    arrays h1 !! b = Some 7 ∧ arrays h1 !! b' = Some 7 ∧
    m_current t1 = Some a ∧
    pools h1 !! a = Some (mkPool 7 (Some b') 0 None) ∧
    TPoolAllocator_destroy t1 h1 = Ok (t2, h2) ∧
    pools h2 !! a = None ∧ arrays h2 !! b' = None ∧
    arrays h2 !! b = Some 7.
Proof.
  apply (X12_reserve_leaves_an_array 7 two_chunks.1 two_chunks.2).
  - apply (wf_linked _ _ [(0%nat, mkPool 4 (Some 1%nat) 4 (Some 2%nat))]
             (2%nat, mkPool 4 (Some 3%nat) 1 None) [] []).
    apply (bool_decide_unpack _). vm_compute. exact I.
  - split; [discriminate|reflexivity].
Defined.



(** X14: a released pool is refilled without any allocation.  On a pool
    with an active chunk, all of whose chunks have a size above 0,
    [release] followed by as many calls of [alloc] as the chain has slots
    returns that many pointers, creates no node and no array, and leaves
    [capacity()] as it was; the last chunk is then full, and only the next
    [alloc] creates an array. *)
Theorem X14_release_then_refill t h l1 c l2 fl :
  linked t h l1 c l2 fl →
  Forall (λ x, 0 < m_poolsize x.2) (l1 ++ c :: l2) →
  ∃ t1 h1 ps t2 h2 b t3 h3,
    release t h = Ok (t1, h1) ∧
    alloc_n (Z.to_nat (total_size (l1 ++ c :: l2))) t1 h1 = Ok (ps, t2, h2) ∧
    length ps = Z.to_nat (total_size (l1 ++ c :: l2)) ∧
    arrays h2 = arrays h ∧ dom (pools h2) = dom (pools h) ∧ brk h2 = brk h ∧
    capacity t2 = capacity t ∧ freeMem t2 h2 = Ok 0 ∧
    alloc t2 h2 = Ok (Some (b, 0), t3, h3) ∧
    arrays h2 !! b = None ∧ is_Some (arrays h3 !! b).
Proof.
  intros Hl Hpos.
  destruct (release_linked _ _ _ _ _ _ Hl) as (x & tl & P' & E & Hr & Hl1 & Hdom & _).
  rewrite E in Hpos |- *. apply Forall_cons in Hpos as [Hx Htl].
  destruct (refill _ _ _ _ _ Hl1)
    as (ps & t2 & h2 & l1' & c' & Hr2 & Hl2 & Hfull & HA & HB & HD & HC & _).
  { split.
    - simpl. apply Forall_cons. split; [simpl; lia|].
      apply Forall_fmap. eapply Forall_impl; [exact Htl|].
      intros y Hy. unfold compose. simpl in *. lia.
    - apply Forall_fmap, Forall_true. done. }
  assert (m_poolsize (zero x).2 - m_currentIdx (zero x).2 + total_size (zero <$> tl)
          = total_size (x :: tl)) as Hcount.
  { rewrite total_size_zero. simpl. lia. }
  rewrite Hcount in Hr2.
  destruct (alloc_full_fresh _ _ _ _ _ Hl2 Hfull) as [Hr3 _].
  destruct (linked_current _ _ _ _ _ _ Hl2) as (_ & Hcur & Hlook & _ & _ & Hsz).
  destruct (mem_fresh_None h2 (S (brk h2)) (lk_fresh _ _ _ _ _ _ Hl2)) as [_ Eb]; [lia|].
  eexists _, _, _, _, _, _, _, _. split; [exact Hr|]. split; [exact Hr2|].
  split; [by eapply alloc_n_length|].
  split; [exact HA|]. split; [by rewrite HD|]. split; [exact HB|].
  split; [exact HC|]. split.
  { unfold freeMem, load. rewrite Hcur, Hlook. simpl. by rewrite Hfull, Z.sub_diag. }
  split; [exact Hr3|]. split; [exact Eb|].
  simpl. rewrite lookup_insert_eq. by eexists.
Qed.

Lemma X14_release_then_refill_witness :
  ∃ t1 h1 ps t2 h2 b t3 h3,
    release two_chunks.1 two_chunks.2 = Ok (t1, h1) ∧
    alloc_n (Z.to_nat (total_size ([(0%nat, mkPool 4 (Some 1%nat) 4 (Some 2%nat))] ++
                                    (2%nat, mkPool 4 (Some 3%nat) 1 None) :: [])))
      t1 h1 = Ok (ps, t2, h2) ∧
    length ps = Z.to_nat (total_size ([(0%nat, mkPool 4 (Some 1%nat) 4 (Some 2%nat))] ++
                                       (2%nat, mkPool 4 (Some 3%nat) 1 None) :: [])) ∧
    arrays h2 = arrays two_chunks.2 ∧ dom (pools h2) = dom (pools two_chunks.2) ∧
    brk h2 = brk two_chunks.2 ∧
    capacity t2 = capacity two_chunks.1 ∧ freeMem t2 h2 = Ok 0 ∧
    alloc t2 h2 = Ok (Some (b, 0), t3, h3) ∧
    arrays h2 !! b = None ∧ is_Some (arrays h3 !! b).
Proof.
  apply (X14_release_then_refill two_chunks.1 two_chunks.2
           [(0%nat, mkPool 4 (Some 1%nat) 4 (Some 2%nat))]
           (2%nat, mkPool 4 (Some 3%nat) 1 None) [] []).
  - apply (bool_decide_unpack _). vm_compute. exact I.
  - apply (bool_decide_unpack _). vm_compute. exact I.
Defined.

(** X15: a pool that is constructed with size [n] and then used through
    [alloc] and [release] only has chunks of size [n] throughout, and
    [capacity()] is [n] times the number of chunks of its chain (modulo
    [2^64]). *)
Theorem X15_uniform_chunks_exact_capacity h0 n t h :
  mem_fresh h0 → 0 ≤ n < 2 ^ 64 → cycled h0 n t h →
  ∃ l,
    is_chain (pools h) (m_first t) l ∧ l ≠ [] ∧
    Forall (λ x, m_poolsize x.2 = n) l ∧
    capacity t = wrap (n * Z.of_nat (length l)).
Proof.
  intros Hfr0 Hn Hcy.
  destruct (cycled_inv _ _ _ _ Hfr0 Hn Hcy) as (l1 & c & l2 & Hl & [Hsz Hcap _ _ _ _]).
  exists (l1 ++ c :: l2). split; [apply (lk_first _ _ _ _ _ _ Hl)|].
  split; [by destruct l1|]. split.
  - apply Forall_fmap in Hsz. exact Hsz.
  - by rewrite length_fmap in Hcap.
Qed.

Lemma X15_uniform_chunks_exact_capacity_witness :
  ∃ l,
    is_chain (pools two_chunks.2) (m_first two_chunks.1) l ∧ l ≠ [] ∧
    Forall (λ x, m_poolsize x.2 = 4) l ∧
    capacity two_chunks.1 = wrap (4 * Z.of_nat (length l)).
Proof.
  apply (X15_uniform_chunks_exact_capacity empty_mem 4 two_chunks.1 two_chunks.2).
  - apply (bool_decide_unpack _). vm_compute. exact I.
  - split; [discriminate|reflexivity].
  - apply (cyc_alloc _ _ (mkAlloc (Some 0%nat) (Some 0%nat) None 4)
             (mkMem (<[0%nat := mkPool 4 (Some 1%nat) 4 None]> ∅) (<[1%nat := 4]> ∅) 2%nat)
             (Some (3%nat, 0))); [|vm_compute; reflexivity].
    apply (cyc_alloc _ _ (mkAlloc (Some 0%nat) (Some 0%nat) None 4)
             (mkMem (<[0%nat := mkPool 4 (Some 1%nat) 3 None]> ∅) (<[1%nat := 4]> ∅) 2%nat)
             (Some (1%nat, 3))); [|vm_compute; reflexivity].
    apply (cyc_alloc _ _ (mkAlloc (Some 0%nat) (Some 0%nat) None 4)
             (mkMem (<[0%nat := mkPool 4 (Some 1%nat) 2 None]> ∅) (<[1%nat := 4]> ∅) 2%nat)
             (Some (1%nat, 2))); [|vm_compute; reflexivity].
    apply (cyc_alloc _ _ (mkAlloc (Some 0%nat) (Some 0%nat) None 4)
             (mkMem (<[0%nat := mkPool 4 (Some 1%nat) 1 None]> ∅) (<[1%nat := 4]> ∅) 2%nat)
             (Some (1%nat, 1))); [|vm_compute; reflexivity].
    apply (cyc_alloc _ _ (TPoolAllocator_sized 4 empty_mem).1
             (TPoolAllocator_sized 4 empty_mem).2 (Some (1%nat, 0)));
      [|vm_compute; reflexivity].
    apply cyc_sized.
Defined.

(** X16: no leak under [alloc] and [release].  For a pool that is
    constructed with a size in a memory [h0] and then used through [alloc]
    and [release] only, the destructor deletes every node and every array
    the pool created: the nodes and the arrays in memory are those of [h0]
    again. *)
Theorem X16_destructor_frees_everything h0 n t h :
  mem_fresh h0 → 0 ≤ n < 2 ^ 64 → cycled h0 n t h →
  ∃ t' h',
    TPoolAllocator_destroy t h = Ok (t', h') ∧
    pools h' = pools h0 ∧ arrays h' = arrays h0.
Proof.
  intros Hfr0 Hn Hcy.
  destruct (cycled_inv _ _ _ _ Hfr0 Hn Hcy)
    as (l1 & c & l2 & Hl & [_ _ _ Hnew HP HA]).
  destruct (clear_linked _ _ _ _ _ _ Hl) as (P' & A' & Hr & HP' & HA' & _).
  eexists _, _. split; [exact Hr|]. rewrite Forall_forall in Hnew. split; simpl.
  - apply map_eq. intros a. rewrite HP'. case_decide as Hin.
    + symmetry. apply (mem_fresh_None h0 a Hfr0).
      rewrite <- static_addrs in Hin.
      apply list_elem_of_fmap in Hin as (s1 & -> & Hin).
      apply list_elem_of_fmap in Hin as (s & -> & Hin).
      by destruct (Hnew s Hin).
    + apply HP. by rewrite static_addrs.
  - apply map_eq. intros b. rewrite HA'. case_decide as Hin.
    + symmetry. apply (mem_fresh_None h0 b Hfr0).
      rewrite <- static_bufs in Hin.
      apply list_elem_of_fmap in Hin as (s & Hs & Hin).
      destruct (Hnew s Hin) as [_ Hb]. by apply Hb.
    + apply HA. by rewrite static_bufs.
Qed.

Lemma X16_destructor_frees_everything_witness :
  ∃ t' h',
    TPoolAllocator_destroy two_chunks.1 two_chunks.2 = Ok (t', h') ∧
    pools h' = pools empty_mem ∧ arrays h' = arrays empty_mem.
Proof.
  apply (X16_destructor_frees_everything empty_mem 4 two_chunks.1 two_chunks.2).
  - apply (bool_decide_unpack _). vm_compute. exact I.
  - split; [discriminate|reflexivity].
  - apply (cyc_alloc _ _ (mkAlloc (Some 0%nat) (Some 0%nat) None 4)
             (mkMem (<[0%nat := mkPool 4 (Some 1%nat) 4 None]> ∅) (<[1%nat := 4]> ∅) 2%nat)
             (Some (3%nat, 0))); [|vm_compute; reflexivity].
    apply (cyc_alloc _ _ (mkAlloc (Some 0%nat) (Some 0%nat) None 4)
             (mkMem (<[0%nat := mkPool 4 (Some 1%nat) 3 None]> ∅) (<[1%nat := 4]> ∅) 2%nat)
             (Some (1%nat, 3))); [|vm_compute; reflexivity].
    apply (cyc_alloc _ _ (mkAlloc (Some 0%nat) (Some 0%nat) None 4)
             (mkMem (<[0%nat := mkPool 4 (Some 1%nat) 2 None]> ∅) (<[1%nat := 4]> ∅) 2%nat)
             (Some (1%nat, 2))); [|vm_compute; reflexivity].
    apply (cyc_alloc _ _ (mkAlloc (Some 0%nat) (Some 0%nat) None 4)
             (mkMem (<[0%nat := mkPool 4 (Some 1%nat) 1 None]> ∅) (<[1%nat := 4]> ∅) 2%nat)
             (Some (1%nat, 1))); [|vm_compute; reflexivity].
    apply (cyc_alloc _ _ (TPoolAllocator_sized 4 empty_mem).1
             (TPoolAllocator_sized 4 empty_mem).2 (Some (1%nat, 0)));
      [|vm_compute; reflexivity].
    apply cyc_sized.
Defined.

(** X17: [reserve(m)] with [0 <= m < 2^64] on a pool (a state without
    active chunk and free list, or a linked one).  It returns.  If the pool
    has an active chunk, every chunk of the chain from [m_first] is
    deleted together with its array.  The pool is then a single new chunk
    of size [m] with a new array of [m] elements, which is [m_first] and
    [m_current]; the free list is empty and [capacity()] is [m]. *)
Theorem X17_reserve_rebuilds (m : Z) t h :
  wf t h → 0 ≤ m < 2 ^ 64 →
  ∃ a b t' h',
    reserve m t h = Ok (t', h') ∧
    (∀ l, m_current t ≠ None → is_chain (pools h) (m_first t) l →
       ∀ x, x ∈ l →
         is_Some (pools h !! x.1) ∧ pools h' !! x.1 = None ∧
         ∃ bx, m_pool x.2 = Some bx ∧
               is_Some (arrays h !! bx) ∧ arrays h' !! bx = None) ∧
    pools h !! a = None ∧ arrays h !! b = None ∧
    is_chain (pools h') (m_first t') [(a, mkPool m (Some b) 0 None)] ∧
    arrays h' !! b = Some m ∧
    m_first t' = Some a ∧ m_current t' = Some a ∧ m_freeList t' = None ∧
    capacity t' = m.
Proof.
  intros Hwf Hm. pose proof (wf_fresh _ _ Hwf) as Hfr.
  destruct (reserve_wf m t h Hwf Hm) as (t1 & h1 & Hc & Hr & Hl').
  destruct (mem_fresh_None h (brk h) Hfr) as [Ea _]; [lia|].
  destruct (mem_fresh_None h (S (S (brk h))) Hfr) as [_ Eb]; [lia|].
  eexists (brk h), (S (S (brk h))), _, _. split; [exact Hr|].
  split; [|split_and!; try done].
  - intros l Hcur Hl x Hx. destruct Hwf as [Hnone _ _|l1 c l2 fl Hlk]; [done|].
    assert (l = l1 ++ c :: l2) as ->.
    { eapply is_seg_inj; [exact Hl | apply (lk_first _ _ _ _ _ _ Hlk)]. }
    destruct (clear_linked _ _ _ _ _ _ Hlk) as (P' & A' & Hc' & HP & HA & _).
    rewrite Hc in Hc'. injection Hc' as -> ->.
    destruct (chunks_ok_live _ _ x (lk_chunks _ _ _ _ _ _ Hlk) Hx) as (bx & Hbx & Hlive & _).
    pose proof (is_seg_lookup _ _ _ _ _ Hl Hx) as Hlook.
    destruct Hfr as [F1 F2].
    assert (x.1 < brk h)%nat by (apply F1; by rewrite Hlook).
    assert (bx < brk h)%nat by (apply F2; by rewrite Hlive).
    split; [by rewrite Hlook|]. split.
    + simpl. rewrite lookup_insert_ne by lia. rewrite HP.
      rewrite decide_True; [done|]. apply list_elem_of_fmap. by exists x.
    + exists bx. split; [done|]. split; [by rewrite Hlive|].
      simpl. rewrite !lookup_insert_ne by lia. rewrite HA.
      rewrite decide_True; [done|]. rewrite <- Hbx.
      apply list_elem_of_fmap. exists x.2. split; [done|].
      apply list_elem_of_fmap. by exists x.
  - apply (lk_first _ _ _ _ _ _ Hl').
  - simpl. apply lookup_insert_eq.
Qed.

Lemma X17_reserve_rebuilds_witness :
  ∃ a b t' h',
    reserve 7 two_chunks.1 two_chunks.2 = Ok (t', h') ∧
    (∀ l, m_current two_chunks.1 ≠ None →
       is_chain (pools two_chunks.2) (m_first two_chunks.1) l →
       ∀ x, x ∈ l →
         is_Some (pools two_chunks.2 !! x.1) ∧ pools h' !! x.1 = None ∧
         ∃ bx, m_pool x.2 = Some bx ∧
               is_Some (arrays two_chunks.2 !! bx) ∧ arrays h' !! bx = None) ∧
    pools two_chunks.2 !! a = None ∧ arrays two_chunks.2 !! b = None ∧
    is_chain (pools h') (m_first t') [(a, mkPool 7 (Some b) 0 None)] ∧
    arrays h' !! b = Some 7 ∧
    m_first t' = Some a ∧ m_current t' = Some a ∧ m_freeList t' = None ∧
    capacity t' = 7.
Proof.
  apply (X17_reserve_rebuilds 7 two_chunks.1 two_chunks.2).
  - apply (wf_linked _ _ [(0%nat, mkPool 4 (Some 1%nat) 4 (Some 2%nat))]
             (2%nat, mkPool 4 (Some 3%nat) 1 None) [] []).
    apply (bool_decide_unpack _). vm_compute. exact I.
  - split; [discriminate|reflexivity].
Defined.
